(** * Z3IteBuilder: reads of KLEE arrays as if-then-else trees

    A verification development for [klee/lib/Solver/Z3IteBuilder.cpp].
    The builder turns a read of a byte array (a base array under a chain of
    single-index updates) into a Z3 term made of nested conditionals, and
    memoises both the leaves of every array and every read it resolves.

    The C++ code is embedded shallowly: Z3 terms are an inductive type, the
    two caches of the builder are finite maps held in a record that is
    threaded through the functions, and the functions keep their names. *)

From Stdlib Require Import ZArith NArith Lia String Ascii List.
From Stdlib Require Import HexadecimalString.
From stdpp Require Import base option list gmap strings pretty.

(** ** Z3 terms

    Z3 hash-conses the terms of a context: two [z3::expr] handles denote the
    same object exactly when the terms are structurally equal.  Equality of
    [expr] below therefore stands for identity of the Z3 object, and the
    read cache, which is keyed by the term of the index, is keyed by the
    value of type [expr]. *)

Module Z3.

Inductive sort : Type :=
| BoolSort
| BvSort (sz : N).

(** The builder itself only makes numerals, constants, equalities and
    conditionals.  Index and value terms come from the base class and may
    use any other operator of Z3; [App1] and [App2] stand for those, an
    operator being known by its name and the sort of its result. *)
Inductive expr : Type :=
| Numeral (n : Z) (sz : N)
| Const (name : string) (s : sort)
| Eq (a b : expr)
| Ite (c t e : expr)
| App1 (f : string) (s : sort) (a : expr)
| App2 (f : string) (s : sort) (a b : expr).

(** [context::bv_val(n, sz)]: the numeral of [sz] bits; Z3 keeps the value
    reduced modulo [2^sz]. *)
Definition bv_val (n : Z) (sz : N) : expr :=
  Numeral (n mod 2 ^ Z.of_N sz) sz.

(** [context::bv_const(name, sz)]: the constant called [name]. *)
Definition bv_const (name : string) (sz : N) : expr :=
  Const name (BvSort sz).

(** *** Sorts

    [operator==] and [Z3_mk_ite] reject arguments of the wrong sort.  The
    embedding builds the term in any case and [sort_of] tells whether Z3
    accepts it: [None] is an ill-sorted term. *)

Global Instance sort_eq_dec : EqDecision sort.
Proof. solve_decision. Defined.

Fixpoint sort_of (e : expr) : option sort :=
  match e with
  | Numeral _ sz => Some (BvSort sz)
  | Const _ s => Some s
  | Eq a b =>
      match sort_of a, sort_of b with
      | Some sa, Some sb => if decide (sa = sb) then Some BoolSort else None
      | _, _ => None
      end
  | Ite c t e =>
      match sort_of c, sort_of t, sort_of e with
      | Some BoolSort, Some st, Some se =>
          if decide (st = se) then Some st else None
      | _, _, _ => None
      end
  | App1 _ s a =>
      match sort_of a with Some _ => Some s | None => None end
  | App2 _ s a b =>
      match sort_of a, sort_of b with
      | Some _, Some _ => Some s
      | _, _ => None
      end
  end.

Definition well_sorted (e : expr) : Prop := is_Some (sort_of e).

(** *** Values under a model

    A model of the solver gives a value to every constant and a function
    to every operator the builder does not know.  Bit-vectors are their
    unsigned value, the Booleans are 0 and 1. *)

Record model : Type := {
  m_const : string -> sort -> Z;
  m_app1 : string -> sort -> Z -> Z;
  m_app2 : string -> sort -> Z -> Z -> Z
}.

Definition in_sort (s : sort) (z : Z) : Z :=
  match s with
  | BoolSort => if (z =? 0)%Z then 0%Z else 1%Z
  | BvSort sz => (z mod 2 ^ Z.of_N sz)%Z
  end.

Fixpoint eval (md : model) (e : expr) : Z :=
  match e with
  | Numeral n sz => in_sort (BvSort sz) n
  | Const name s => in_sort s (m_const md name s)
  | Eq a b => if (eval md a =? eval md b)%Z then 1%Z else 0%Z
  | Ite c t e => if (eval md c =? 0)%Z then eval md e else eval md t
  | App1 f s a => in_sort s (m_app1 md f s (eval md a))
  | App2 f s a b => in_sort s (m_app2 md f s (eval md a) (eval md b))
  end.

(** *** Terms as keys of a map *)

Global Instance expr_eq_dec : EqDecision expr.
Proof. solve_decision. Defined.

Definition sort_to_tree (s : sort) : gen_tree (Z + string) :=
  match s with
  | BoolSort => GenNode 0 []
  | BvSort sz => GenNode 1 [GenLeaf (inl (Z.of_N sz))]
  end.

Definition sort_of_tree (t : gen_tree (Z + string)) : sort :=
  match t with
  | GenNode 1 [GenLeaf (inl z)] => BvSort (Z.to_N z)
  | _ => BoolSort
  end.

Fixpoint expr_to_tree (e : expr) : gen_tree (Z + string) :=
  match e with
  | Numeral n sz => GenNode 0 [GenLeaf (inl n); GenLeaf (inl (Z.of_N sz))]
  | Const name s => GenNode 1 [GenLeaf (inr name); sort_to_tree s]
  | Eq a b => GenNode 2 [expr_to_tree a; expr_to_tree b]
  | Ite c t e => GenNode 3 [expr_to_tree c; expr_to_tree t; expr_to_tree e]
  | App1 f s a => GenNode 4 [GenLeaf (inr f); sort_to_tree s; expr_to_tree a]
  | App2 f s a b =>
      GenNode 5 [GenLeaf (inr f); sort_to_tree s;
                 expr_to_tree a; expr_to_tree b]
  end.

Fixpoint expr_of_tree (t : gen_tree (Z + string)) : expr :=
  match t with
  | GenNode 0 [GenLeaf (inl n); GenLeaf (inl z)] => Numeral n (Z.to_N z)
  | GenNode 1 [GenLeaf (inr name); s] => Const name (sort_of_tree s)
  | GenNode 2 [a; b] => Eq (expr_of_tree a) (expr_of_tree b)
  | GenNode 3 [c; t; e] =>
      Ite (expr_of_tree c) (expr_of_tree t) (expr_of_tree e)
  | GenNode 4 [GenLeaf (inr f); s; a] =>
      App1 f (sort_of_tree s) (expr_of_tree a)
  | GenNode 5 [GenLeaf (inr f); s; a; b] =>
      App2 f (sort_of_tree s) (expr_of_tree a) (expr_of_tree b)
  | _ => Numeral 0 0
  end.

Lemma sort_of_to_tree (s : sort) : sort_of_tree (sort_to_tree s) = s.
Proof. destruct s; simpl; [reflexivity | by rewrite N2Z.id]. Qed.

Lemma expr_of_to_tree (e : expr) : expr_of_tree (expr_to_tree e) = e.
Proof.
  induction e; simpl;
    rewrite ?sort_of_to_tree, ?N2Z.id; congruence.
Qed.

Global Instance expr_countable : Countable expr :=
  inj_countable' expr_to_tree expr_of_tree expr_of_to_tree.

End Z3.

Import Z3.

(** ** The data the builder reads

    Arrays and update nodes are reached through pointers, and the pointer is
    the cache key.  A descriptor therefore carries the address it lives at;
    the null pointer of an update list is the empty list. *)

Definition ptr : Type := N.

(** Modelled from the spec: the array descriptor [klee::Array], declared in
    a header outside this class.  It has an identity, a declared size (an
    [unsigned]), a flag telling constant from symbolic arrays, the literal
    values of a constant array ([getZExtValue] of each stored constant) and
    a declared name. *)
Record Array : Type := {
  array_id : ptr;
  name : string;
  size : N;
  isConstantArray : bool;
  constantValues : list Z
}.

(** Modelled from the spec: an update node [klee::UpdateNode] holds the index
    written, the value written and the link to the next older node.  A chain
    is the list of its nodes from the newest to the oldest, a pointer to a
    node is the chain that starts at it, [un->next] is its tail and the null
    pointer is [[]].  [KExpr] is the type of KLEE expressions. *)
Record UpdateNode (KExpr : Type) : Type := {
  node_id : ptr;
  un_index : KExpr;
  un_value : KExpr
}.
Arguments node_id {KExpr} _.
Arguments un_index {KExpr} _.
Arguments un_value {KExpr} _.

(** Modelled from the spec: a read expression [klee::ReadExpr] is an index
    and an update list, the latter a root array and the head of a chain. *)
Record ReadExpr (KExpr : Type) : Type := {
  re_index : KExpr;
  updates_root : Array;
  updates_head : list (UpdateNode KExpr)
}.
Arguments re_index {KExpr} _.
Arguments updates_root {KExpr} _.
Arguments updates_head {KExpr} _.

(** The identity of an update node, as the read cache sees it: the address
    of the node, or nothing for the null pointer. *)
Definition un_key {KExpr : Type} (un : list (UpdateNode KExpr)) : option ptr :=
  match un with
  | [] => None
  | n :: _ => Some (node_id n)
  end.

(** ** The state of the builder and its monad *)

Abbreviation ExprVector := (list expr).
Abbreviation ReadKey := (expr * (ptr * option ptr))%type.

(** The builder has two maps of its own.  The members it inherits from
    [Z3Builder] (the Z3 context and the cache of translated expressions,
    which the caller hands in) are the field [base_], of a type [Base] this
    class knows nothing about. *)
Record Z3IteBuilder (Base : Type) : Type := {
  base_ : Base;
  array_variables_ : gmap ptr ExprVector;
  read_map_ : gmap ReadKey expr
}.
Arguments base_ {Base} _.
Arguments array_variables_ {Base} _.
Arguments read_map_ {Base} _.

Definition new_builder {Base : Type} (base : Base) : Z3IteBuilder Base :=
  {| base_ := base; array_variables_ := ∅; read_map_ := ∅ |}.

Definition M (Base A : Type) : Type :=
  Z3IteBuilder Base -> A * Z3IteBuilder Base.

Global Instance M_ret {Base : Type} : MRet (M Base) := λ A x s, (x, s).
Global Instance M_bind {Base : Type} : MBind (M Base) :=
  λ A B f m s, let '(x, s') := m s in f x s'.

Definition gets {Base A : Type} (f : Z3IteBuilder Base -> A) : M Base A :=
  λ s, (f s, s).
Definition modify {Base : Type}
    (f : Z3IteBuilder Base -> Z3IteBuilder Base) : M Base unit :=
  λ s, (tt, f s).

(** [insert] of the C++ maps: the entry is added unless the key is there. *)
Definition map_insert `{Countable K} {V : Type}
    (k : K) (v : V) (m : gmap K V) : gmap K V :=
  match m !! k with
  | Some _ => m
  | None => <[k := v]> m
  end.

Definition insert_array_variables {Base : Type} (k : ptr) (v : ExprVector)
    (s : Z3IteBuilder Base) : Z3IteBuilder Base :=
  {| base_ := base_ s;
     array_variables_ := map_insert k v (array_variables_ s);
     read_map_ := read_map_ s |}.

Definition insert_read_map {Base : Type} (k : ReadKey) (v : expr)
    (s : Z3IteBuilder Base) : Z3IteBuilder Base :=
  {| base_ := base_ s;
     array_variables_ := array_variables_ s;
     read_map_ := map_insert k v (read_map_ s) |}.

(** [for (unsigned i = 0, e = n; i != e; ++i) acc = body i acc]. *)
Fixpoint for_loop_from {A : Type} (count : nat) (i : N)
    (body : N -> A -> A) (acc : A) : A :=
  match count with
  | O => acc
  | S count' => for_loop_from count' (N.succ i) body (body i acc)
  end.

Definition for_loop {A : Type} (e : N) (body : N -> A -> A) (init : A) : A :=
  for_loop_from (N.to_nat e) 0%N body init.

(** The arguments of a call are evaluated in an order the compiler picks.
    [in_order] runs three computations in any of the six orders and hands
    back the three results in the order of the arguments. *)
Inductive arg_order : Type :=
| Order123 | Order132 | Order213 | Order231 | Order312 | Order321.

Definition in_order {Base A B C : Type} (o : arg_order)
    (a : M Base A) (b : M Base B) (c : M Base C) : M Base (A * B * C) :=
  match o with
  | Order123 => x ← a; y ← b; z ← c; mret (x, y, z)
  | Order132 => x ← a; z ← c; y ← b; mret (x, y, z)
  | Order213 => y ← b; x ← a; z ← c; mret (x, y, z)
  | Order231 => y ← b; z ← c; x ← a; mret (x, y, z)
  | Order312 => z ← c; x ← a; y ← b; mret (x, y, z)
  | Order321 => z ← c; y ← b; x ← a; mret (x, y, z)
  end.

Global Instance expr_inhabited : Inhabited expr := populate (Numeral 0 0).

(** [(unsigned)x] of a 64-bit value. *)
Definition to_unsigned (x : Z) : Z := (x mod 2 ^ 32)%Z.

(** [s.c_str()] read by [%s]: the characters before the first NUL. *)
Fixpoint c_str (s : string) : string :=
  match s with
  | EmptyString => EmptyString
  | String c s' => if Ascii.eqb c Ascii.zero then EmptyString
                   else String c (c_str s')
  end.

Section Builder.

(** The expressions of KLEE and their translation by the base class
    [Z3Builder], which is not part of this class.  [getOrMakeExpr] reads
    and writes the members of the base class and may come back into this
    builder through [makeReadExpr], so it runs in the monad.  [order] is
    the order in which the compiler evaluates the arguments of
    [Z3_mk_ite], and [format_pointer] is what [%p] prints, which the C
    library defines. *)
Context {Base KExpr : Type}.
Variable getOrMakeExpr : KExpr -> M Base expr.
Variable order : arg_order.
Variable format_pointer : ptr -> string.

Abbreviation UpdateNode := (UpdateNode KExpr).
Abbreviation ReadExpr := (ReadExpr KExpr).

(** [snprintf(buf, sizeof(buf), "%s_%p_%u", name, root, i)] with a buffer
    of 256 bytes: at most 255 characters are kept. *)
Definition snprintf_name (root : Array) (i : N) : string :=
  substring 0 255
    (c_str (name root) +:+ "_" +:+ format_pointer (array_id root)
       +:+ "_" +:+ pretty i).

(** The vector [getArrayValues] builds when the array is not cached. *)
Definition makeArrayValues (root : Array) : ExprVector :=
  if isConstantArray root then
    for_loop (size root)
      (λ i elem_vector,
         elem_vector ++
           [bv_val (to_unsigned (constantValues root !!! N.to_nat i)) 8])
      []
  else
    for_loop (size root)
      (λ i elem_vector,
         elem_vector ++ [bv_const (snprintf_name root i) 8])
      [].

Definition getArrayValues (root : Array) : M Base ExprVector :=
  it ← gets (λ s, array_variables_ s !! array_id root);
  match it with
  | Some elem_vector => mret elem_vector
  | None =>
      let elem_vector := makeArrayValues root in
      _ ← modify (insert_array_variables (array_id root) elem_vector);
      mret elem_vector
  end.

(** The element of the vector at [index]; reading past the end is
    undefined in C++ and [None] here. *)
Definition getInitialRead (root : Array) (index : N) : M Base (option expr) :=
  elem_vector ← getArrayValues root;
  mret (elem_vector !! N.to_nat index).

Definition getReadForInitialArray (index : expr) (root : Array) : M Base expr :=
  elem_vector ← getArrayValues root;
  mret (for_loop (size root)
          (λ i ite_tree,
             Ite (Eq index (bv_val (Z.of_N i) 32))
                 (elem_vector !!! N.to_nat i)
                 ite_tree)
          (bv_val 0 8)).

Fixpoint getReadForArray (index : expr) (root : Array)
    (un : list UpdateNode) {struct un} : M Base expr :=
  let key := (index, (array_id root, un_key un)) in
  it ← gets (λ s, read_map_ s !! key);
  match it with
  | Some r => mret r
  | None =>
      result ←
        match un with
        | [] => getReadForInitialArray index root
        | n :: next =>
            '(i, v, rest) ←
              in_order order
                (getOrMakeExpr (un_index n))
                (getOrMakeExpr (un_value n))
                (getReadForArray index root next);
            mret (Ite (Eq index i) v rest)
        end;
      _ ← modify (insert_read_map key result);
      mret result
  end.

Definition makeReadExpr (re : ReadExpr) : M Base expr :=
  index ← getOrMakeExpr (re_index re);
  getReadForArray index (updates_root re) (updates_head re).

(** ** What the caches are meant to hold

    The definitions below do not come from the C++ code; they say what the
    code computes and which states of the builder are sound. *)

(** The Z3 term of a KLEE expression: the term [getOrMakeExpr] returns for
    it, whatever the caches hold (terms are hash-consed). *)
Variable translate : KExpr -> expr.

(** The leaf of [root] at offset [i]. *)
Definition leaf (root : Array) (i : N) : expr :=
  if isConstantArray root then
    bv_val (to_unsigned (constantValues root !!! N.to_nat i)) 8
  else
    bv_const (snprintf_name root i) 8.

(** The chain of conditionals over the first [n] offsets of a vector: the
    test of the last offset is outermost, the test of offset 0 innermost,
    and the byte 0 is what remains when no test succeeds. *)
Fixpoint ite_chain (index : expr) (elem_vector : ExprVector) (n : nat)
    : expr :=
  match n with
  | O => bv_val 0 8
  | S n' =>
      Ite (Eq index (bv_val (Z.of_nat n') 32))
          (elem_vector !!! n')
          (ite_chain index elem_vector n')
  end.

(** The chain as the specification words it: the leaf of the last offset
    is the innermost default, the offsets are wrapped from the last down
    to the first, and the test of offset 0 is outermost. *)
Definition spec_ite_chain (index : expr) (elem_vector : ExprVector)
    (n : nat) : expr :=
  fold_right
    (λ offset chain,
       Ite (Eq index (bv_val (Z.of_nat offset) 32))
           (elem_vector !!! offset)
           chain)
    (elem_vector !!! (n - 1))
    (seq 0 n).

(** The conditions met on the way down the else-branches of a term. *)
Fixpoint else_spine (e : expr) : list expr :=
  match e with
  | Ite c _ e' => c :: else_spine e'
  | _ => []
  end.

(** The term at the end of the else-branches: the innermost default. *)
Fixpoint else_end (e : expr) : expr :=
match e with
| Ite _ _ e' => else_end e'
| _ => e
end.

(** The term of a read of [root] under the chain [un]. *)
Fixpoint read_term (index : expr) (root : Array) (un : list UpdateNode)
    : expr :=
  match un with
  | [] => ite_chain index (makeArrayValues root) (N.to_nat (size root))
  | n :: next =>
      Ite (Eq index (translate (un_index n)))
          (translate (un_value n))
          (read_term index root next)
  end.

(** The value of the base array at the integer [k], under a model: the
    value of the leaf at [k]. *)
Definition base_value (md : model) (root : Array) (k : Z) : Z :=
  eval md (leaf root (Z.to_N k)).

(** The objects of a session.  The caller owns the arrays and the update
    nodes and keeps them alive and unchanged, so an address stands for one
    object: the heap says which. *)
Record Heap : Type := {
  heap_arrays : gmap ptr Array;
  heap_nodes : gmap ptr (list UpdateNode)
}.

Definition live_array (H : Heap) (root : Array) : Prop :=
  heap_arrays H !! array_id root = Some root.

Fixpoint live_chain (H : Heap) (un : list UpdateNode) : Prop :=
  match un with
  | [] => True
  | n :: next => heap_nodes H !! node_id n = Some un ∧ live_chain H next
  end.

(** The ranges the C++ types impose: the size is an [unsigned], and a
    constant array stores one value per offset. *)
Definition wf_array (root : Array) : Prop :=
  (size root < 2 ^ 32)%N ∧
  (isConstantArray root = true ->
   length (constantValues root) = N.to_nat (size root)).

(** A sound state: the entries of live objects hold what the builder
    computes for them. *)
Definition Inv (H : Heap) (s : Z3IteBuilder Base) : Prop :=
  (∀ root elem_vector,
      live_array H root ->
      array_variables_ s !! array_id root = Some elem_vector ->
      elem_vector = makeArrayValues root) ∧
  (∀ index root un r,
      live_array H root -> live_chain H un ->
      read_map_ s !! (index, (array_id root, un_key un)) = Some r ->
      r = read_term index root un).

(** Both caches of [s'] hold every entry of [s], unchanged. *)
Definition grows (s s' : Z3IteBuilder Base) : Prop :=
  array_variables_ s ⊆ array_variables_ s' ∧ read_map_ s ⊆ read_map_ s'.

(** A computation that only adds entries, and one that returns [x] from
    every sound state and leaves the state sound. *)
Definition growing {A : Type} (m : M Base A) : Prop :=
  ∀ s, grows s (m s).2.

Definition computes (H : Heap) {A : Type} (m : M Base A) (x : A) : Prop :=
  ∀ s, Inv H s -> (m s).1 = x ∧ Inv H (m s).2.

(** The calls a client makes to one builder, and a session of calls. *)
Inductive call : Type :=
| CallGetInitialRead (root : Array) (index : N)
| CallGetOrMakeExpr (e : KExpr)
| CallMakeReadExpr (re : ReadExpr)
| CallGetReadForArray (index : expr) (root : Array) (un : list UpdateNode).

Definition run_call (c : call) (s : Z3IteBuilder Base) : Z3IteBuilder Base :=
  match c with
  | CallGetInitialRead root index => (getInitialRead root index s).2
  | CallGetOrMakeExpr e => (getOrMakeExpr e s).2
  | CallMakeReadExpr re => (makeReadExpr re s).2
  | CallGetReadForArray index root un => (getReadForArray index root un s).2
  end.

Definition run (calls : list call) (s : Z3IteBuilder Base)
  : Z3IteBuilder Base :=
  fold_left (λ s c, run_call c s) calls s.

Definition live_call (H : Heap) (c : call) : Prop :=
  match c with
  | CallGetInitialRead root _ => live_array H root
  | CallGetOrMakeExpr _ => True
  | CallMakeReadExpr re =>
      live_array H (updates_root re) ∧ live_chain H (updates_head re)
  | CallGetReadForArray _ root un => live_array H root ∧ live_chain H un
  end.

(** ** What a read is worth

    More of what the terms mean and of what a call may touch. *)

(** The value of the base array at the value [k] of an index: the value of
    the leaf at [k] when [k] is an offset of the array, and 0 otherwise. *)
Definition initial_value (md : model) (root : Array) (k : Z) : Z :=
  if decide (0 ≤ k < Z.of_N (size root))%Z then base_value md root k
  else 0%Z.

(** The value of a read through a chain of updates: the value written by
    the newest update whose index has the value of the read index, and
    [base] when there is none. *)
Fixpoint chain_value (md : model) (index : expr) (un : list UpdateNode)
    (base : Z) : Z :=
  match un with
  | [] => base
  | n :: next =>
      if decide (eval md index = eval md (translate (un_index n)))
      then eval md (translate (un_value n))
      else chain_value md index next base
  end.

(** The tests of a read, one per update, the newest first, and one per
    offset, the last first. *)
Definition update_tests (index : expr) (un : list UpdateNode) : list expr :=
  (λ n, Eq index (translate (un_index n))) <$> un.

Definition offset_tests (index : expr) (n : nat) : list expr :=
  (λ k, Eq index (bv_val (Z.of_nat k) 32)) <$> rev (seq 0 n).

(** The sorts the expressions of KLEE give to a chain: indices of 32 bits
    and values of 8 bits. *)
Definition well_sorted_chain (un : list UpdateNode) : Prop :=
  Forall
    (λ n, sort_of (translate (un_index n)) = Some (BvSort 32)
          ∧ sort_of (translate (un_value n)) = Some (BvSort 8))
    un.

(** The keys of a read and of the reads of the older nodes of its chain. *)
Fixpoint suffix_keys (index : expr) (root : Array) (un : list UpdateNode)
    : list ReadKey :=
  (index, (array_id root, un_key un)) ::
  match un with
  | [] => []
  | _ :: next => suffix_keys index root next
  end.

(** A computation that leaves alone the leaf vectors of the arrays outside
    [A] and the reads of the keys outside [K]. *)
Definition touches_only {X : Type} (m : M Base X)
    (A : ptr -> Prop) (K : ReadKey -> Prop) : Prop :=
  ∀ s,
    (∀ a, ¬ A a -> array_variables_ (m s).2 !! a = array_variables_ s !! a)
    ∧ (∀ k, ¬ K k -> read_map_ (m s).2 !! k = read_map_ s !! k).

(** A computation that establishes [P] from every sound state. *)
Definition ensures (H : Heap) {X : Type} (m : M Base X)
    (P : Z3IteBuilder Base -> Prop) : Prop :=
  ∀ s, Inv H s -> P (m s).2.

End Builder.

(** ** A small session

    Concrete arrays, update nodes and models on which the builder is run.
    The expressions of this session are Z3 terms already, and pointers
    print as glibc prints them. *)

Module Examples.

Definition translate : expr -> expr := λ e, e.

(** The base class of the session counts the expressions it translates. *)
Definition getOrMakeExpr : expr -> M nat expr :=
  λ e s,
    (translate e,
     {| base_ := S (base_ s);
        array_variables_ := array_variables_ s;
        read_map_ := read_map_ s |}).

Definition format_pointer (p : ptr) : string :=
  "0x" +:+ NilZero.string_of_uint (N.to_hex_uint p).

(** A symbolic array of two bytes. *)
Definition sym2 : Array :=
  {| array_id := 4096%N; name := "arr"; size := 2%N;
     isConstantArray := false; constantValues := [] |}.


(** The constant array of the scenario of the specification. *)
Definition const4 : Array :=
  {| array_id := 8192%N; name := "A"; size := 4%N;
     isConstantArray := true; constantValues := [10; 20; 30; 40]%Z |}.

(** A constant array of one byte, and an empty array. *)
Definition const1 : Array :=
  {| array_id := 12288%N; name := "B"; size := 1%N;
     isConstantArray := true; constantValues := [7]%Z |}.

Definition empty0 : Array :=
  {| array_id := 16384%N; name := "E"; size := 0%N;
     isConstantArray := false; constantValues := [] |}.

(** The chain [(2, 99); (1, 55)], the newest update first. *)
Definition un0 : UpdateNode expr :=
  {| node_id := 256%N; un_index := bv_val 2 32; un_value := bv_val 99 8 |}.

Definition un1 : UpdateNode expr :=
  {| node_id := 512%N; un_index := bv_val 1 32; un_value := bv_val 55 8 |}.

Definition heap : Heap :=
  {| heap_arrays :=
       <[4096%N := sym2]> (<[8192%N := const4]> (<[12288%N := const1]>
         (<[16384%N := empty0]> ∅)));
     heap_nodes := <[256%N := [un0; un1]]> (<[512%N := [un1]]> ∅) |}.

(** The index of a symbolic read, of 32 bits and of 64 bits. *)
Definition x : expr := bv_const "x" 32.
Definition x64 : expr := bv_const "x" 64.

(** A model in which every constant of 32 bits is [v] and every other
    constant is 7. *)
Definition model_of (v : Z) : model :=
  {| m_const := λ _ s, if decide (s = BvSort 32) then v else 7%Z;
     m_app1 := λ _ _ _, 0%Z;
     m_app2 := λ _ _ _ _, 0%Z |}.

(** A builder that has resolved reads before. *)
Definition used_builder : Z3IteBuilder nat :=
  run getOrMakeExpr Order321 format_pointer
    [CallGetReadForArray x const4 [un0; un1];
     CallGetInitialRead sym2 1%N;
     CallMakeReadExpr
       {| re_index := bv_val 0 32; updates_root := const1;
          updates_head := [] |}]
    (new_builder 0).

End Examples.

(** More arrays: a constant array whose values do not all fit in a byte, and
    a symbolic array whose name fills the buffer of [snprintf]. *)

Module MoreExamples.

Definition wide3 : Array :=
  {| array_id := 20480%N; name := "W"; size := 3%N;
     isConstantArray := true; constantValues := [255; 256; 300]%Z |}.

Definition long_name : string :=
  string_of_list_ascii (repeat "a"%char 255).

Definition long2 : Array :=
  {| array_id := 24576%N; name := long_name; size := 2%N;
     isConstantArray := false; constantValues := [] |}.

Definition heap : @Heap expr :=
  {| heap_arrays := <[20480%N := wide3]> (<[24576%N := long2]> ∅);
     heap_nodes := ∅ |}.


End MoreExamples.

(** * Proofs *)

(** ** Loops *)

Lemma for_loop_from_S {A : Type} (n : nat) (i : N) (body : N -> A -> A)
    (acc : A) :
  for_loop_from (S n) i body acc =
  body (i + N.of_nat n)%N (for_loop_from n i body acc).
Proof.
  revert i acc. induction n as [|n IH]; intros i acc.
  - simpl. by rewrite N.add_0_r.
  - change (for_loop_from (S (S n)) i body acc)
      with (for_loop_from (S n) (N.succ i) body (body i acc)).
    rewrite IH. simpl. f_equal. lia.
Qed.

Lemma for_loop_0 {A : Type} (body : N -> A -> A) (init : A) :
  for_loop 0 body init = init.
Proof. reflexivity. Qed.

Lemma for_loop_succ {A : Type} (e : N) (body : N -> A -> A) (init : A) :
  for_loop (N.succ e) body init = body e (for_loop e body init).
Proof.
  unfold for_loop. rewrite N2Nat.inj_succ, for_loop_from_S.
  by rewrite N.add_0_l, N2Nat.id.
Qed.

(** A loop of [push_back] builds the list of its elements in order. *)
Lemma for_loop_push_back {A : Type} (f : N -> A) (e : N) :
  for_loop e (λ i v, v ++ [f i]) [] =
  (λ k, f (N.of_nat k)) <$> seq 0 (N.to_nat e).
Proof.
  induction e as [|e IH] using N.peano_ind.
  - reflexivity.
  - rewrite for_loop_succ, IH, N2Nat.inj_succ, seq_S, fmap_app.
    simpl. by rewrite N2Nat.id.
Qed.

(** ** The insertion of the C++ maps *)

Section MapInsert.
Context `{Countable K} {V : Type}.
Implicit Types (m : gmap K V) (k : K) (v : V).

Lemma map_insert_subseteq k v m : m ⊆ map_insert k v m.
Proof.
    unfold map_insert. destruct (m !! k) eqn:E; [done|].
    by apply insert_subseteq.
Qed.

Lemma map_insert_lookup_None k v m :
    m !! k = None -> map_insert k v m !! k = Some v.
Proof. intros E. unfold map_insert. rewrite E. apply lookup_insert_eq. Qed.

Lemma map_insert_lookup_Some k v v' m :
    m !! k = Some v' -> map_insert k v m = m.
Proof. intros E. unfold map_insert. by rewrite E. Qed.

Lemma map_insert_is_Some k v m : is_Some (map_insert k v m !! k).
Proof.
  unfold map_insert. destruct (m !! k) eqn:E.
  - by rewrite E.
  - by rewrite lookup_insert_eq.
Qed.

Lemma map_insert_lookup k k' v v' m :
    map_insert k v m !! k' = Some v' ->
    m !! k' = Some v' ∨ (k' = k ∧ v' = v).
Proof.
    unfold map_insert. destruct (m !! k) eqn:E; [by left|].
    rewrite lookup_insert. case_decide; naive_solver.
Qed.
End MapInsert.

(** ** The builder *)

Ltac unfold_leaves := unfold makeArrayValues, leaf.
Ltac unfold_base_value := unfold base_value.
Ltac unfold_getArrayValues := unfold getArrayValues, mbind, M_bind, gets.
Ltac unfold_reads :=
  unfold getReadForInitialArray, getInitialRead, mbind, M_bind.
Ltac unfold_makeReadExpr := unfold makeReadExpr, mbind, M_bind.
Ltac unfold_names := unfold snprintf_name.

Section Correctness.

Context {Base KExpr : Type}.
Variable getOrMakeExpr : KExpr -> M Base expr.
Variable order : arg_order.
Variable format_pointer : ptr -> string.
Variable translate : KExpr -> expr.

Local Abbreviation UpdateNode := (UpdateNode KExpr).
Local Abbreviation Heap := (@Heap KExpr).
Local Abbreviation makeArrayValues := (makeArrayValues format_pointer).
Local Abbreviation leaf := (leaf format_pointer).
Local Abbreviation getArrayValues := (getArrayValues format_pointer).
Local Abbreviation getInitialRead := (getInitialRead format_pointer).
Local Abbreviation getReadForInitialArray :=
    (getReadForInitialArray format_pointer).
Local Abbreviation getReadForArray :=
    (getReadForArray getOrMakeExpr order format_pointer).
Local Abbreviation makeReadExpr :=
    (makeReadExpr getOrMakeExpr order format_pointer).
Local Abbreviation read_term := (read_term format_pointer translate).
Local Abbreviation Inv := (Inv (Base := Base) format_pointer translate).
Local Abbreviation run_call :=
    (run_call getOrMakeExpr order format_pointer).
Local Abbreviation run := (run getOrMakeExpr order format_pointer).
Local Abbreviation computes :=
  (computes (Base := Base) format_pointer translate).
Local Abbreviation grows := (grows (Base := Base)).
Local Abbreviation growing := (growing (Base := Base)).
Local Abbreviation base_value := (base_value format_pointer).

Implicit Types (root : Array) (un : list UpdateNode) (index : expr).
Implicit Types (s : Z3IteBuilder Base) (H : Heap).

  (** *** The leaf vector *)

Lemma makeArrayValues_fmap root :
    makeArrayValues root =
    (λ k, leaf root (N.of_nat k)) <$> seq 0 (N.to_nat (size root)).
Proof.
    unfold_leaves.
    destruct (isConstantArray root); by rewrite for_loop_push_back.
Qed.

Lemma makeArrayValues_length root :
    length (makeArrayValues root) = N.to_nat (size root).
Proof. by rewrite makeArrayValues_fmap, length_fmap, length_seq. Qed.

Lemma makeArrayValues_lookup root (i : N) :
    (i < size root)%N ->
    makeArrayValues root !! N.to_nat i = Some (leaf root i).
Proof.
    intros Hi. rewrite makeArrayValues_fmap, list_lookup_fmap.
    rewrite lookup_seq_lt by lia. simpl. by rewrite N2Nat.id.
Qed.

Lemma makeArrayValues_lookup_total root (i : N) :
    (i < size root)%N -> makeArrayValues root !!! N.to_nat i = leaf root i.
Proof.
    intros Hi. apply list_lookup_total_correct.
    by apply makeArrayValues_lookup.
Qed.

  (** *** The functions, one case at a time *)

Lemma getArrayValues_hit root s elem_vector :
    array_variables_ s !! array_id root = Some elem_vector ->
    getArrayValues root s = (elem_vector, s).
Proof.
    intros E. unfold_getArrayValues. simpl.
    by rewrite E.
Qed.

Lemma getArrayValues_miss root s :
    array_variables_ s !! array_id root = None ->
    getArrayValues root s =
    (makeArrayValues root,
     insert_array_variables (array_id root) (makeArrayValues root) s).
Proof.
    intros E. unfold_getArrayValues. simpl.
    by rewrite E.
Qed.

Lemma for_loop_ite_chain index (elem_vector : ExprVector) (e : N) :
    for_loop e
      (λ i ite_tree,
         Ite (Eq index (bv_val (Z.of_N i) 32))
             (elem_vector !!! N.to_nat i) ite_tree)
      (bv_val 0 8) =
    ite_chain index elem_vector (N.to_nat e).
Proof.
    induction e as [|e IH] using N.peano_ind; [reflexivity|].
    rewrite for_loop_succ, IH, N2Nat.inj_succ. simpl.
    by rewrite N_nat_Z.
Qed.

Lemma getReadForInitialArray_eq index root s :
    getReadForInitialArray index root s =
    (ite_chain index (getArrayValues root s).1 (N.to_nat (size root)),
     (getArrayValues root s).2).
Proof.
    unfold_reads.
    destruct (getArrayValues root s) as [elem_vector s']. simpl.
    unfold mret, M_ret. by rewrite for_loop_ite_chain.
Qed.

Lemma getReadForArray_hit index root un s r :
    read_map_ s !! (index, (array_id root, un_key un)) = Some r ->
    getReadForArray index root un s = (r, s).
Proof.
    intros E. destruct un; simpl in *; unfold mbind, M_bind, gets; simpl;
      by rewrite E.
Qed.

Lemma getReadForArray_nil_miss index root s :
    read_map_ s !! (index, (array_id root, None)) = None ->
    getReadForArray index root [] s =
    let r := (getReadForInitialArray index root s).1 in
    (r, insert_read_map (index, (array_id root, None)) r
          (getReadForInitialArray index root s).2).
Proof.
    intros E. simpl. unfold mbind, M_bind, gets. simpl. rewrite E.
    by destruct (getReadForInitialArray index root s).
Qed.

Lemma getReadForArray_cons_miss index root (n : UpdateNode) next s :
    read_map_ s !! (index, (array_id root, Some (node_id n))) = None ->
    getReadForArray index root (n :: next) s =
    let args :=
      in_order order (getOrMakeExpr (un_index n)) (getOrMakeExpr (un_value n))
        (getReadForArray index root next) s in
    let r := Ite (Eq index args.1.1.1) args.1.1.2 args.1.2 in
    (r, insert_read_map (index, (array_id root, Some (node_id n))) r args.2).
Proof.
    intros E. simpl. unfold mbind at 1, M_bind at 1, gets. simpl. rewrite E.
    unfold mbind at 1, M_bind at 1. unfold mbind at 1, M_bind at 1.
    destruct (in_order _ _ _ _ s) as [[[i v] rest] s']. reflexivity.
Qed.

  (** *** The caches only grow *)

Global Instance grows_preorder : PreOrder grows.
Proof.
    split.
    - intros s. by split.
    - intros s1 s2 s3 [Ha Hr] [Ha' Hr']. split; by etransitivity.
Qed.

Lemma growing_ret {A : Type} (x : A) : growing (mret x).
Proof. intros s. reflexivity. Qed.

Lemma growing_gets {A : Type} (f : Z3IteBuilder Base -> A) :
  growing (gets f).
Proof. intros s. reflexivity. Qed.

Lemma growing_bind {A B : Type} (m : M Base A) (f : A -> M Base B) :
    growing m -> (∀ x, growing (f x)) -> growing (m ≫= f).
Proof.
    intros Hm Hf s. unfold mbind, M_bind.
    specialize (Hm s). destruct (m s) as [x s']. simpl in Hm.
    etransitivity; [exact Hm | apply Hf].
Qed.

Lemma growing_insert_array_variables (k : ptr) (v : ExprVector) :
    growing (modify (insert_array_variables k v)).
Proof. intros s. split; simpl; [apply map_insert_subseteq | done]. Qed.

Lemma growing_insert_read_map (k : ReadKey) (v : expr) :
    growing (modify (insert_read_map k v)).
Proof. intros s. split; simpl; [done | apply map_insert_subseteq]. Qed.

Lemma in_order_growing {A B C : Type} (o : arg_order)
      (a : M Base A) (b : M Base B) (c : M Base C) :
    growing a -> growing b -> growing c -> growing (in_order o a b c).
Proof.
    intros Ha Hb Hc.
    destruct o; simpl;
      repeat (apply growing_bind; [done | intros ?]); apply growing_ret.
Qed.

Lemma getArrayValues_growing root : growing (getArrayValues root).
Proof.
    apply growing_bind; [apply growing_gets|]. intros [v|].
    - apply growing_ret.
    - apply growing_bind; [apply growing_insert_array_variables|].
      intros _. apply growing_ret.
Qed.

Lemma getInitialRead_growing root (i : N) : growing (getInitialRead root i).
Proof.
    apply growing_bind; [apply getArrayValues_growing|].
    intros v. apply growing_ret.
Qed.

Lemma getReadForInitialArray_growing index root :
    growing (getReadForInitialArray index root).
Proof.
    apply growing_bind; [apply getArrayValues_growing|].
    intros v. apply growing_ret.
Qed.

Section Growing.
Hypothesis getOrMakeExpr_growing : ∀ e, growing (getOrMakeExpr e).

Lemma getReadForArray_growing index root un :
      growing (getReadForArray index root un).
Proof.
      induction un as [|n next IH]; simpl.
      - apply growing_bind; [apply growing_gets|]. intros [r|].
        + apply growing_ret.
        + apply growing_bind; [apply getReadForInitialArray_growing|].
          intros r. apply growing_bind; [apply growing_insert_read_map|].
          intros _. apply growing_ret.
      - apply growing_bind; [apply growing_gets|]. intros [r|].
        + apply growing_ret.
        + apply growing_bind.
          * apply growing_bind; [by apply in_order_growing|].
            intros [[i v] rest]. apply growing_ret.
          * intros r. apply growing_bind; [apply growing_insert_read_map|].
            intros _. apply growing_ret.
Qed.

Lemma makeReadExpr_growing re : growing (makeReadExpr re).
Proof.
      apply growing_bind; [done|]. intros i. apply getReadForArray_growing.
Qed.

Lemma run_call_grows c s : grows s (run_call c s).
Proof.
      destruct c; simpl.
      - apply getInitialRead_growing.
      - apply getOrMakeExpr_growing.
      - apply makeReadExpr_growing.
      - apply getReadForArray_growing.
Qed.

Lemma run_app calls calls' s :
  run (calls ++ calls') s = run calls' (run calls s).
Proof. apply fold_left_app. Qed.

Lemma run_grows calls s : grows s (run calls s).
Proof.
      revert s. induction calls as [|c calls IH]; intros s; simpl.
      - reflexivity.
      - etransitivity; [apply run_call_grows | apply IH].
Qed.
(** *** Sound states *)

Section Sound.
Variable H : Heap.
Hypothesis getOrMakeExpr_computes :
  ∀ e, computes H (getOrMakeExpr e) (translate e).

Lemma live_array_inj root root' :
  live_array H root -> live_array H root' ->
  array_id root = array_id root' -> root = root'.
Proof. unfold live_array. intros H1 H2 E. rewrite E in H1. congruence. Qed.

Lemma live_chain_inj un un' :
  live_chain H un -> live_chain H un' -> un_key un = un_key un' -> un = un'.
Proof.
  destruct un as [|n next], un' as [|n' next']; simpl; try done.
  intros [H1 _] [H2 _] [= E]. rewrite E in H1. congruence.
Qed.

Lemma live_chain_tail (n : UpdateNode) next :
  live_chain H (n :: next) -> live_chain H next.
Proof. by intros [_ ?]. Qed.

Lemma Inv_new_builder (base : Base) : Inv H (new_builder base).
Proof. split; intros *; simpl; by rewrite lookup_empty. Qed.

Lemma Inv_insert_array_variables s root :
  Inv H s -> live_array H root ->
  Inv H (insert_array_variables (array_id root) (makeArrayValues root) s).
Proof.
  intros [Ha Hr] Hl. split; simpl; [|exact Hr].
  intros root' v Hl' E. apply map_insert_lookup in E as [E|[E ->]].
  - by eapply Ha.
  - by rewrite (live_array_inj root' root).
Qed.

Lemma Inv_insert_read_map s index root un :
  Inv H s -> live_array H root -> live_chain H un ->
  Inv H (insert_read_map (index, (array_id root, un_key un))
           (read_term index root un) s).
Proof.
  intros [Ha Hr] Hl Hc. split; simpl; [exact Ha|].
  intros index' root' un' r Hl' Hc' E.
  apply map_insert_lookup in E as [E|[[= -> E1 E2] ->]].
  - by eapply Hr.
  - by rewrite (live_array_inj root' root), (live_chain_inj un' un).
Qed.

Lemma computes_ret {A : Type} (x : A) : computes H (mret x) x.
Proof. by intros s HI. Qed.

Lemma computes_bind {A B : Type} (m : M Base A) (f : A -> M Base B)
    (x : A) (y : B) :
  computes H m x -> computes H (f x) y -> computes H (m ≫= f) y.
Proof.
  intros Hm Hf s HI. unfold mbind, M_bind.
  destruct (Hm s HI) as [E HI']. destruct (m s) as [x' s'].
  simpl in *. subst x'. by apply Hf.
Qed.

Lemma in_order_computes {A B C : Type} (o : arg_order)
    (a : M Base A) (b : M Base B) (c : M Base C) (x : A) (y : B) (z : C) :
  computes H a x -> computes H b y -> computes H c z ->
  computes H (in_order o a b c) (x, y, z).
Proof.
  intros Ha Hb Hc.
  destruct o; simpl;
    repeat (eapply computes_bind; [done|]); apply computes_ret.
Qed.

Lemma getArrayValues_computes root :
  live_array H root ->
  computes H (getArrayValues root) (makeArrayValues root).
Proof.
  intros Hl s HI.
  destruct (array_variables_ s !! array_id root) as [v|] eqn:E.
  - rewrite (getArrayValues_hit _ _ _ E). simpl. split; [|done].
    destruct HI as [Ha _]. by eapply Ha.
  - rewrite getArrayValues_miss by done. simpl. split; [done|].
    by apply Inv_insert_array_variables.
Qed.

Lemma getReadForInitialArray_computes index root :
  live_array H root ->
  computes H (getReadForInitialArray index root) (read_term index root []).
Proof.
  intros Hl s HI. rewrite getReadForInitialArray_eq. simpl.
  by destruct (getArrayValues_computes root Hl s HI) as [-> HI'].
Qed.

Lemma getReadForArray_nil_computes index root :
  live_array H root ->
  computes H (getReadForArray index root []) (read_term index root []).
Proof.
  intros Hl s HI.
  destruct (read_map_ s !! (index, (array_id root, None))) as [r|] eqn:E.
  - rewrite (getReadForArray_hit _ _ [] _ _ E). simpl. split; [|done].
    destruct HI as [_ Hr]. by apply (Hr index root []).
  - rewrite getReadForArray_nil_miss by done. cbv zeta.
    destruct (getReadForInitialArray_computes index root Hl s HI)
      as [-> HI'].
    simpl. split; [done|].
    by apply (Inv_insert_read_map _ index root []).
Qed.

Lemma getReadForArray_computes index root un :
  live_array H root -> live_chain H un ->
  computes H (getReadForArray index root un) (read_term index root un).
Proof.
  intros Hl. induction un as [|n next IH]; intros Hc s HI.
  - by apply getReadForArray_nil_computes.
  - destruct (read_map_ s !! (index, (array_id root, Some (node_id n))))
      as [r|] eqn:E.
    + rewrite (getReadForArray_hit _ _ (n :: next) _ _ E). simpl.
      split; [|done]. destruct HI as [_ Hr].
      by apply (Hr index root (n :: next)).
    + rewrite getReadForArray_cons_miss by done. cbv zeta.
      pose proof (in_order_computes order _ _ _ _ _ _
                    (getOrMakeExpr_computes (un_index n))
                    (getOrMakeExpr_computes (un_value n))
                    (IH (live_chain_tail _ _ Hc)) s HI) as [-> HI'].
      simpl. split; [done|].
      by apply (Inv_insert_read_map _ index root (n :: next)).
Qed.

(** After a call the key of the call is cached, with the term returned. *)
Lemma getReadForArray_cached index root un s :
  live_array H root -> live_chain H un -> Inv H s ->
  read_map_ (getReadForArray index root un s).2
    !! (index, (array_id root, un_key un)) =
  Some (getReadForArray index root un s).1.
Proof.
  intros Hl Hc HI.
  destruct (getReadForArray_computes index root un Hl Hc s HI) as [Er HI'].
  destruct (read_map_ s !! (index, (array_id root, un_key un)))
    as [r|] eqn:E.
  - by rewrite (getReadForArray_hit _ _ _ _ _ E).
  - assert (is_Some (read_map_ (getReadForArray index root un s).2
                       !! (index, (array_id root, un_key un)))) as [r Hr].
    { destruct un as [|n next].
      - rewrite getReadForArray_nil_miss by done. cbv zeta. simpl.
        apply map_insert_is_Some.
      - rewrite getReadForArray_cons_miss by done. cbv zeta. simpl.
        apply map_insert_is_Some. }
    rewrite Hr, Er. f_equal. destruct HI' as [_ HI'].
    by apply (HI' index root un).
Qed.

Lemma makeReadExpr_computes re :
  live_array H (updates_root re) -> live_chain H (updates_head re) ->
  computes H (makeReadExpr re)
    (read_term (translate (re_index re)) (updates_root re) (updates_head re)).
Proof.
  intros Hl Hc. eapply computes_bind; [apply getOrMakeExpr_computes|].
  by apply getReadForArray_computes.
Qed.

Lemma run_call_Inv c s : live_call H c -> Inv H s -> Inv H (run_call c s).
Proof.
  destruct c; simpl; intros Hl HI.
  - unfold_reads.
    destruct (getArrayValues_computes root Hl s HI) as [_ HI'].
    by destruct (getArrayValues root s).
  - by apply getOrMakeExpr_computes.
  - destruct Hl. by apply makeReadExpr_computes.
  - destruct Hl. by apply getReadForArray_computes.
Qed.

Lemma run_Inv calls s :
  Forall (live_call H) calls -> Inv H s -> Inv H (run calls s).
Proof.
  intros Hl. revert s. induction Hl as [|c calls Hc _ IH]; intros s HI.
  - done.
  - simpl. apply IH. by apply run_call_Inv.
Qed.

(** *** Values and sorts of the terms *)

Lemma eval_bv_val (md : model) (n : Z) (sz : N) :
  (0 ≤ n < 2 ^ Z.of_N sz)%Z -> eval md (bv_val n sz) = n.
Proof.
  intros Hn. unfold bv_val. cbn [eval in_sort].
  by rewrite !(Z.mod_small n) by done.
Qed.

Lemma eval_ite_chain (md : model) index (elem_vector : ExprVector) (n : nat) :
  (Z.of_nat n ≤ 2 ^ 32)%Z ->
  eval md (ite_chain index elem_vector n) =
  if decide (0 ≤ eval md index < Z.of_nat n)%Z
  then eval md (elem_vector !!! Z.to_nat (eval md index))
  else 0%Z.
Proof.
  induction n as [|n IH]; intros Hn.
  - rewrite decide_False by lia. reflexivity.
  - cbn [ite_chain eval]. rewrite eval_bv_val by (simpl; lia).
    rewrite IH by lia.
    destruct (Z.eqb_spec (eval md index) (Z.of_nat n)) as [E|E]; simpl.
    + rewrite decide_True by lia. by rewrite E, Nat2Z.id.
    + repeat case_decide; try lia; done.
Qed.

Lemma else_spine_ite_chain index (elem_vector : ExprVector) (n : nat) :
  else_spine (ite_chain index elem_vector n) =
  (λ k, Eq index (bv_val (Z.of_nat k) 32)) <$> rev (seq 0 n).
Proof.
  induction n as [|n IH]; [reflexivity|].
  rewrite seq_S, rev_unit. simpl. by rewrite IH.
Qed.

Lemma else_end_ite_chain index (elem_vector : ExprVector) (n : nat) :
  else_end (ite_chain index elem_vector n) = bv_val 0 8.
Proof. induction n as [|n IH]; [reflexivity | exact IH]. Qed.

Lemma sort_of_leaf root (i : N) : sort_of (leaf root i) = Some (BvSort 8).
Proof. unfold_leaves. by destruct (isConstantArray root). Qed.

Lemma sort_of_ite_chain index (elem_vector : ExprVector) (n : nat) :
  (∀ k, k < n -> sort_of (elem_vector !!! k) = Some (BvSort 8)) ->
  sort_of (ite_chain index elem_vector n) =
  if decide (n = 0 ∨ sort_of index = Some (BvSort 32))
  then Some (BvSort 8) else None.
Proof.
  induction n as [|n IH]; intros Hleaf.
  - by rewrite decide_True by (by left).
  - cbn [ite_chain sort_of]. rewrite IH by (intros; apply Hleaf; lia).
    rewrite Hleaf by lia.
    destruct (decide (sort_of index = Some (BvSort 32))) as [E|E].
    + rewrite E. simpl. rewrite !decide_True by (done || by right). done.
    + rewrite (decide_False (P := S n = 0 ∨ _)) by (intros [?|?]; done).
      destruct (sort_of index) as [sa|]; [|done]. simpl.
      destruct (decide (sa = BvSort 32)) as [->|?]; done.
Qed.

Lemma sort_of_makeArrayValues root (k : nat) :
  k < N.to_nat (size root) ->
  sort_of (makeArrayValues root !!! k) = Some (BvSort 8).
Proof.
  intros Hk. rewrite <- (Nat2N.id k).
  rewrite makeArrayValues_lookup_total by lia. apply sort_of_leaf.
Qed.

Lemma eval_leaf_constant (md : model) root (k : N) :
  isConstantArray root = true ->
  (0 ≤ constantValues root !!! N.to_nat k < 256)%Z ->
  eval md (leaf root k) = constantValues root !!! N.to_nat k.
Proof.
  intros Hc Hv. unfold_leaves. unfold to_unsigned. rewrite Hc.
  rewrite Z.mod_small by lia. apply eval_bv_val. simpl. lia.
Qed.

(** The value of a base read: the leaf at the value of the index when it is
    an offset of the array, and 0 otherwise. *)
Lemma eval_read_term_nil (md : model) index root :
  (size root < 2 ^ 32)%N ->
  eval md (read_term index root []) =
  if decide (0 ≤ eval md index < Z.of_N (size root))%Z
  then base_value md root (eval md index)
  else 0%Z.
Proof.
  intros Hsz. simpl. rewrite eval_ite_chain by lia.
  rewrite N_nat_Z. case_decide as Hk; [|done].
  unfold base_value. rewrite <- Z_N_nat.
  by rewrite makeArrayValues_lookup_total by lia.
Qed.

Lemma eval_read_term_cons (md : model) index root (n : UpdateNode) next :
  eval md (read_term index root (n :: next)) =
  if decide (eval md index = eval md (translate (un_index n)))
  then eval md (translate (un_value n))
  else eval md (read_term index root next).
Proof.
  simpl. destruct (Z.eqb_spec (eval md index)
                     (eval md (translate (un_index n)))) as [E|E]; simpl.
  - by rewrite decide_True.
  - by rewrite decide_False.
Qed.

(** *** The base read *)

(** C1 (amended).  The base read is a chain of conditionals over the leaf
    vector of the array: the 8-bit constant 0 is the innermost default, the
    offsets are wrapped from the first to the last as
    [if index == offset then leaf[offset] else chain], so the outermost
    conditional tests offset [size-1] and the innermost offset 0, every
    test compares the index with the 32-bit numeral of the offset, and the
    term evaluates to 0 when the index equals no offset.  A read resolved
    with no update node, and not yet cached, is this term. *)
Theorem C1_base_read_is_ite_chain index root s :
  let elem_vector := (getArrayValues root s).1 in
  let r := (getReadForInitialArray index root s).1 in
  r = ite_chain index elem_vector (N.to_nat (size root))
  ∧ else_end r = bv_val 0 8
  ∧ else_spine r =
    (λ k, Eq index (bv_val (Z.of_nat k) 32))
      <$> rev (seq 0 (N.to_nat (size root)))
  ∧ (∀ e : N, size root = N.succ e ->
       r = Ite (Eq index (bv_val (Z.of_N e) 32))
             (elem_vector !!! N.to_nat e)
             (ite_chain index elem_vector (N.to_nat e)))
  ∧ (∀ md : model,
       (size root < 2 ^ 32)%N ->
       ¬ (0 ≤ eval md index < Z.of_N (size root))%Z ->
       eval md r = 0%Z)
  ∧ (read_map_ s !! (index, (array_id root, None)) = None ->
     (getReadForArray index root [] s).1 = r).
Proof.
  intros elem_vector r.
  assert (r = ite_chain index elem_vector (N.to_nat (size root))) as Hr.
  { subst r elem_vector. by rewrite getReadForInitialArray_eq. }
  split; [exact Hr|]. rewrite Hr.
  split; [apply else_end_ite_chain|].
  split; [apply else_spine_ite_chain|].
  split; [|split].
  - intros e ->. rewrite N2Nat.inj_succ. simpl. by rewrite N_nat_Z.
  - intros md Hsz Hout. rewrite eval_ite_chain by lia.
    rewrite N_nat_Z. by rewrite decide_False.
  - intros E. rewrite getReadForArray_nil_miss by done. cbv zeta. simpl.
    by rewrite <- Hr.
Qed.

(** C3.  A read of a constant array at the concrete index [k] of an offset,
    with no updates, evaluates to the byte stored at [k]; so does a read at
    any index that evaluates to [k]. *)
Theorem C3_constant_array_read root s (md : model) (k : N) :
  Inv H s -> live_array H root -> wf_array root ->
  isConstantArray root = true ->
  Forall (λ v, (0 ≤ v < 256)%Z) (constantValues root) ->
  (k < size root)%N ->
  eval md (getReadForArray (bv_val (Z.of_N k) 32) root [] s).1 =
  constantValues root !!! N.to_nat k
  ∧ ∀ index,
      eval md index = Z.of_N k ->
      eval md (getReadForArray index root [] s).1 =
      constantValues root !!! N.to_nat k.
Proof.
  intros HI Hl [Hsz Hlen] Hc Hbytes Hk.
  assert (∀ index,
            eval md index = Z.of_N k ->
            eval md (getReadForArray index root [] s).1 =
            constantValues root !!! N.to_nat k) as Hread.
  { intros index Ek.
    destruct (getReadForArray_nil_computes index root Hl s HI) as [-> _].
    rewrite eval_read_term_nil by done. rewrite Ek.
    rewrite decide_True by lia. unfold_base_value.
    rewrite N2Z.id. apply eval_leaf_constant; [done|].
    assert (is_Some (constantValues root !! N.to_nat k)) as [v Hv].
    { apply lookup_lt_is_Some. rewrite Hlen by done. lia. }
    rewrite (list_lookup_total_correct _ _ _ Hv).
    by apply (Forall_lookup_1 _ _ _ _ Hbytes Hv). }
  split; [|exact Hread].
  apply Hread. apply eval_bv_val. simpl. lia.
Qed.

(** C5 (amended).  A read of an array of size 1 with no updates is the
    conditional [if index == 0 then leaf else 0]: it evaluates to the single
    leaf when the index evaluates to 0, and to the byte 0 otherwise. *)
Theorem C5_size_one_read index root s :
  Inv H s -> live_array H root -> size root = 1%N ->
  let r := (getReadForArray index root [] s).1 in
  r = Ite (Eq index (bv_val 0 32)) (leaf root 0) (bv_val 0 8)
  ∧ ∀ md : model,
      eval md r =
      if decide (eval md index = 0%Z) then eval md (leaf root 0) else 0%Z.
Proof.
  intros HI Hl Hsz r. subst r.
  destruct (getReadForArray_nil_computes index root Hl s HI) as [-> _].
  assert (read_term index root [] =
          Ite (Eq index (bv_val 0 32)) (leaf root 0) (bv_val 0 8)) as ->.
  { assert (makeArrayValues root !!! 0 = leaf root 0) as Hleaf
      by (apply (makeArrayValues_lookup_total root 0); lia).
    simpl. rewrite Hsz. simpl. by rewrite Hleaf. }
  split; [done|]. intros md. cbn [eval].
  rewrite (eval_bv_val md 0 32) by (simpl; lia).
  rewrite (eval_bv_val md 0 8) by (simpl; lia).
  destruct (Z.eqb_spec (eval md index) 0) as [E|E]; simpl.
  - by rewrite decide_True.
  - by rewrite decide_False.
Qed.

(** C9.  The innermost default of the chain is the 8-bit constant 0: a read
    of an array of size 0 with no updates is the literal byte 0 whatever the
    index, and a read of any array at a concrete 32-bit index that is not an
    offset of the array evaluates to 0. *)
Theorem C9_default_is_zero root s :
  Inv H s -> live_array H root -> (size root < 2 ^ 32)%N ->
  (∀ index, else_end (getReadForArray index root [] s).1 = bv_val 0 8)
  ∧ (size root = 0%N ->
     ∀ index, (getReadForArray index root [] s).1 = Numeral 0 8)
  ∧ (∀ (k : Z) (md : model),
       (Z.of_N (size root) ≤ k mod 2 ^ 32)%Z ->
       eval md (getReadForArray (bv_val k 32) root [] s).1 = 0%Z).
Proof.
  intros HI Hl Hsz.
  assert (∀ index, (getReadForArray index root [] s).1 =
                   read_term index root []) as Hr.
  { intros index.
    by destruct (getReadForArray_nil_computes index root Hl s HI). }
  split; [|split].
  - intros index. rewrite Hr. apply else_end_ite_chain.
  - intros Hz index. rewrite Hr. simpl. by rewrite Hz.
  - intros k md Hk. rewrite Hr, eval_read_term_nil by done.
    rewrite decide_False; [done|].
    unfold bv_val. cbn [eval in_sort]. change (Z.of_N 32) with 32%Z.
    rewrite Z.mod_mod by lia. lia.
Qed.

(** C10 (amended).  Every test of the base read compares the index with the
    32-bit numeral of an offset, whatever the size of the array.  The term
    is well-sorted when the index has 32 bits, and, for an array that is
    not empty, only then. *)
Theorem C10_index_sort index root s :
  Inv H s -> live_array H root ->
  let r := (getReadForInitialArray index root s).1 in
  else_spine r =
    (λ k, Eq index (bv_val (Z.of_nat k) 32))
      <$> rev (seq 0 (N.to_nat (size root)))
  ∧ (∀ k : Z, sort_of (bv_val k 32) = Some (BvSort 32))
  ∧ (sort_of index = Some (BvSort 32) -> sort_of r = Some (BvSort 8))
  ∧ (size root ≠ 0%N -> well_sorted r -> sort_of index = Some (BvSort 32)).
Proof.
  intros HI Hl r.
  assert (r = ite_chain index (makeArrayValues root) (N.to_nat (size root)))
    as ->.
  { subst r.
    by destruct (getReadForInitialArray_computes index root Hl s HI)
      as [-> _]. }
  split; [apply else_spine_ite_chain|]. split; [done|].
  unfold well_sorted.
  rewrite sort_of_ite_chain by (intros; by apply sort_of_makeArrayValues).
  split.
  - intros E. by rewrite decide_True by (by right).
  - intros Hnz [srt Hs]. case_decide as Hd; [|done].
    destruct Hd as [Hd|Hd]; [lia | done].
Qed.

(** *** Reads under updates *)

(** C2.  Over any base array and the chain of two updates [(i0, v0)] and
    [(i1, v1)], the newest first, a read at [i0] evaluates to [v0], as does
    a read at any index equal to [i0] under the model; and a read at an
    index that differs from [i0] and from [i1] evaluates as the read of the
    base array: to the value of the base array at the index, when the index
    is an offset of the array. *)
Theorem C2_read_over_write root (n0 n1 : UpdateNode) s (md : model) :
  Inv H s -> live_array H root -> live_chain H [n0; n1] ->
  (size root < 2 ^ 32)%N ->
  eval md (getReadForArray (translate (un_index n0)) root [n0; n1] s).1 =
  eval md (translate (un_value n0))
  ∧ (∀ index,
       eval md index = eval md (translate (un_index n0)) ->
       eval md (getReadForArray index root [n0; n1] s).1 =
       eval md (translate (un_value n0)))
  ∧ ∀ index,
      eval md index ≠ eval md (translate (un_index n0)) ->
      eval md index ≠ eval md (translate (un_index n1)) ->
      eval md (getReadForArray index root [n0; n1] s).1 =
      eval md (getReadForArray index root [] s).1
      ∧ ((0 ≤ eval md index < Z.of_N (size root))%Z ->
         eval md (getReadForArray index root [n0; n1] s).1 =
         base_value md root (eval md index)).
Proof.
  intros HI Hl Hc Hsz.
  assert (∀ index un, live_chain H un ->
            (getReadForArray index root un s).1 = read_term index root un)
    as Hr.
  { intros index un Hun.
    by destruct (getReadForArray_computes index root un Hl Hun s HI). }
  assert (∀ index,
            eval md index = eval md (translate (un_index n0)) ->
            eval md (getReadForArray index root [n0; n1] s).1 =
            eval md (translate (un_value n0))) as Hhit.
  { intros index E. rewrite Hr by done. rewrite eval_read_term_cons.
    by rewrite decide_True. }
  split; [by apply Hhit|]. split; [exact Hhit|].
  intros index Hne0 Hne1. rewrite !Hr by done.
  rewrite !eval_read_term_cons, !decide_False by done.
  split; [done|]. intros Hin.
  rewrite eval_read_term_nil by done. by rewrite decide_True.
Qed.

(** C4.  After a call of [getReadForArray], the key of the call is cached
    with the term the call returned; a second call with the same index,
    array and update node returns that very term from the cache and leaves
    the builder as it is, and so does every later call, whatever calls
    were made in between. *)
Theorem C4_second_call_returns_cached index root un s :
  Inv H s -> live_array H root -> live_chain H un ->
  let r := (getReadForArray index root un s).1 in
  let s1 := (getReadForArray index root un s).2 in
  read_map_ s1 !! (index, (array_id root, un_key un)) = Some r
  ∧ getReadForArray index root un s1 = (r, s1)
  ∧ (∀ s2, grows s1 s2 -> getReadForArray index root un s2 = (r, s2))
  ∧ ∀ calls,
      getReadForArray index root un (run calls s1) = (r, run calls s1).
Proof.
  intros HI Hl Hc r s1.
  pose proof (getReadForArray_cached index root un s Hl Hc HI) as Hcached.
  assert (∀ s2, grows s1 s2 -> getReadForArray index root un s2 = (r, s2))
    as Hlater.
  { intros s2 [_ Hsub]. apply getReadForArray_hit.
    by eapply lookup_weaken. }
  split; [exact Hcached|]. split; [|split; [exact Hlater|]].
  - apply Hlater. reflexivity.
  - intros calls. apply Hlater, run_grows.
Qed.

(** C6.  A call of [getReadForArray] only adds entries to the read cache:
    every entry is still there afterwards, with the same term; and in a
    session of calls, a key that holds a term at some point holds the same
    term at every later point. *)
Theorem C6_read_map_only_grows index root un s :
  read_map_ s ⊆ read_map_ (getReadForArray index root un s).2
  ∧ (∀ (k : ReadKey) (e : expr),
       read_map_ s !! k = Some e ->
       read_map_ (getReadForArray index root un s).2 !! k = Some e)
  ∧ (∀ calls calls' s0 (k : ReadKey) (e e' : expr),
       read_map_ (run calls s0) !! k = Some e ->
       read_map_ (run (calls ++ calls') s0) !! k = Some e' ->
       e = e').
Proof.
  pose proof (getReadForArray_growing index root un s) as [_ Hsub].
  split; [exact Hsub|]. split.
  - intros k e He. by eapply lookup_weaken.
  - intros calls calls' s0 k e e' He He'. rewrite run_app in He'.
    pose proof (run_grows calls' (run calls s0)) as [_ Hsub'].
    eapply lookup_weaken in He; [|exact Hsub']. congruence.
Qed.

(** *** The leaf vector *)

(** C7.  The leaf vector of an array has as many leaves as the array has
    elements.  After the first query the vector is cached under the
    identity of the array, and every later query, whatever calls were made
    in between, returns that same vector from the cache and leaves the
    builder as it is: the vector is built once. *)
Theorem C7_leaf_vector_cached root s :
  Inv H s -> live_array H root ->
  let elem_vector := (getArrayValues root s).1 in
  let s1 := (getArrayValues root s).2 in
  length elem_vector = N.to_nat (size root)
  ∧ array_variables_ s1 !! array_id root = Some elem_vector
  ∧ (∀ s2, grows s1 s2 -> getArrayValues root s2 = (elem_vector, s2))
  ∧ ∀ calls,
      getArrayValues root (run calls s1) = (elem_vector, run calls s1).
Proof.
  intros HI Hl elem_vector s1.
  destruct (getArrayValues_computes root Hl s HI) as [Ev _].
  assert (array_variables_ s1 !! array_id root = Some elem_vector)
    as Hcached.
  { subst elem_vector s1.
    destruct (array_variables_ s !! array_id root) as [v|] eqn:E.
    - by rewrite (getArrayValues_hit _ _ _ E).
    - rewrite getArrayValues_miss by done. simpl.
      by apply map_insert_lookup_None. }
  assert (∀ s2, grows s1 s2 -> getArrayValues root s2 = (elem_vector, s2))
    as Hlater.
  { intros s2 [Hsub _]. apply getArrayValues_hit. by eapply lookup_weaken. }
  split; [|split; [exact Hcached|split; [exact Hlater|]]].
  - subst elem_vector. rewrite Ev. apply makeArrayValues_length.
  - intros calls. apply Hlater, run_grows.
Qed.

Lemma substring_all (n : nat) (str : string) :
  String.length str ≤ n -> substring 0 n str = str.
Proof.
  revert n. induction str as [|c str IH]; intros n Hn.
  - by destruct n.
  - destruct n as [|n]; simpl in *; [lia|]. rewrite IH by lia. done.
Qed.

Lemma substring_app (n : nat) (str str' : string) :
  n ≤ String.length str ->
  substring 0 n (str +:+ str') = substring 0 n str.
Proof.
  revert n. induction str as [|c str IH]; intros n Hn.
  - simpl in Hn. assert (n = 0) as -> by lia. by destruct str'.
  - destruct n as [|n]; [done|]. simpl in *. rewrite IH by lia. done.
Qed.




(** ** More on the builder *)

Local Abbreviation initial_value := (initial_value format_pointer).
Local Abbreviation chain_value := (chain_value translate).
Local Abbreviation update_tests := (update_tests translate).
Local Abbreviation well_sorted_chain := (well_sorted_chain translate).
Local Abbreviation ensures :=
  (ensures (Base := Base) format_pointer translate).

Lemma getReadForArray_term index root un s :
  Inv H s -> live_array H root -> live_chain H un ->
  (getReadForArray index root un s).1 = read_term index root un.
Proof.
  intros HI Hl Hc.
  by destruct (getReadForArray_computes index root un Hl Hc s HI).
Qed.

Lemma getInitialRead_eq root (i : N) s :
  getInitialRead root i s =
  ((getArrayValues root s).1 !! N.to_nat i, (getArrayValues root s).2).
Proof. unfold_reads. by destruct (getArrayValues root s). Qed.

Lemma eval_read_term (md : model) index root un :
  (size root < 2 ^ 32)%N ->
  eval md (read_term index root un) =
  chain_value md index un (initial_value md root (eval md index)).
Proof.
  intros Hsz. induction un as [|n next IH].
  - by rewrite eval_read_term_nil.
  - rewrite eval_read_term_cons, IH. reflexivity.
Qed.

Lemma eval_ite_chain_congr (md : model) index index'
    (elem_vector : ExprVector) (n : nat) :
  eval md index = eval md index' ->
  eval md (ite_chain index elem_vector n) =
  eval md (ite_chain index' elem_vector n).
Proof.
  intros E. induction n as [|n IH]; [reflexivity|].
  cbn [ite_chain eval]. by rewrite E, IH.
Qed.

Lemma eval_read_term_congr (md : model) index index' root un :
  eval md index = eval md index' ->
  eval md (read_term index root un) = eval md (read_term index' root un).
Proof.
  intros E. induction un as [|n next IH].
  - by apply eval_ite_chain_congr.
  - cbn [read_term eval]. by rewrite E, IH.
Qed.

Lemma else_spine_read_term index root un :
  else_spine (read_term index root un) =
  update_tests index un ++ offset_tests index (N.to_nat (size root)).
Proof.
  induction un as [|n next IH].
  - apply else_spine_ite_chain.
  - simpl. by rewrite IH.
Qed.

Lemma else_end_read_term index root un :
  else_end (read_term index root un) = bv_val 0 8.
Proof.
  induction un as [|n next IH]; [apply else_end_ite_chain | exact IH].
Qed.

Lemma sort_of_read_term index root un :
  sort_of index = Some (BvSort 32) -> well_sorted_chain un ->
  sort_of (read_term index root un) = Some (BvSort 8).
Proof.
  intros Hindex Hun. induction Hun as [|n next [Hi Hv] _ IH].
  - simpl.
    rewrite sort_of_ite_chain by (intros; by apply sort_of_makeArrayValues).
    by rewrite decide_True by (by right).
  - cbn [read_term sort_of]. by rewrite Hindex, Hi, Hv, IH.
Qed.

(** X1.  A read through a chain of updates of any length evaluates to the
    value written by the newest update whose index equals the index of the
    read under the model, and, when no update matches, to the leaf of the
    base array at the index, or to 0 when the index is no offset. *)
Theorem X1_read_over_write_chain index root un s (md : model) :
  Inv H s -> live_array H root -> live_chain H un ->
  (size root < 2 ^ 32)%N ->
  eval md (getReadForArray index root un s).1 =
  chain_value md index un (initial_value md root (eval md index)).
Proof.
  intros HI Hl Hc Hsz. rewrite getReadForArray_term by done.
  by apply eval_read_term.
Qed.

(** X2.  Two reads of the same array and chain at indices that are equal
    under a model evaluate to the same value under that model, whatever the
    two states of the builder hold. *)
Theorem X2_equal_indices_equal_reads index index' root un s s'
    (md : model) :
  Inv H s -> Inv H s' -> live_array H root -> live_chain H un ->
  eval md index = eval md index' ->
  eval md (getReadForArray index root un s).1 =
  eval md (getReadForArray index' root un s').1.
Proof.
  intros HI HI' Hl Hc E. rewrite !getReadForArray_term by done.
  by apply eval_read_term_congr.
Qed.

(** X3.  [getInitialRead] at an offset of the array returns the leaf of
    that offset and leaves the leaf vector of the array cached; the base
    read at the concrete index of that offset evaluates to that leaf. *)
Theorem X3_getInitialRead_in_range root (i : N) s (md : model) :
  Inv H s -> live_array H root -> (i < size root)%N ->
  (size root < 2 ^ 32)%N ->
  (getInitialRead root i s).1 = Some (leaf root i)
  ∧ array_variables_ (getInitialRead root i s).2 !! array_id root =
    Some (makeArrayValues root)
  ∧ eval md (getReadForArray (bv_val (Z.of_N i) 32) root [] s).1 =
    eval md (leaf root i).
Proof.
  intros HI Hl Hi Hsz. rewrite getInitialRead_eq. cbn [fst snd].
  destruct (getArrayValues_computes root Hl s HI) as [Ev _].
  split; [by rewrite Ev, makeArrayValues_lookup|]. split.
  - destruct (array_variables_ s !! array_id root) as [v|] eqn:E.
    + rewrite (getArrayValues_hit _ _ _ E) in *. simpl in *. by subst v.
    + rewrite getArrayValues_miss by done. simpl.
      by apply map_insert_lookup_None.
  - destruct (getReadForArray_nil_computes (bv_val (Z.of_N i) 32) root Hl
                s HI) as [-> _].
    rewrite eval_read_term_nil by done.
    rewrite eval_bv_val by (simpl; lia).
    rewrite decide_True by lia. unfold_base_value. by rewrite N2Z.id.
Qed.

(** X4.  The term of a read has one test per update, the newest first, then
    one test per offset of the base array, the last offset first, and the
    8-bit constant 0 at the end of its else-branches. *)
Theorem X4_tests_of_a_read index root un s :
  Inv H s -> live_array H root -> live_chain H un ->
  else_spine (getReadForArray index root un s).1 =
    update_tests index un ++ offset_tests index (N.to_nat (size root))
  ∧ else_end (getReadForArray index root un s).1 = bv_val 0 8.
Proof.
  intros HI Hl Hc. rewrite getReadForArray_term by done.
  split; [apply else_spine_read_term | apply else_end_read_term].
Qed.

(** X5.  When the index of the read has 32 bits and every update of the
    chain has an index of 32 bits and a value of 8 bits, the term of the
    read is well-sorted, of 8 bits. *)
Theorem X5_read_is_well_sorted index root un s :
  Inv H s -> live_array H root -> live_chain H un ->
  sort_of index = Some (BvSort 32) -> well_sorted_chain un ->
  sort_of (getReadForArray index root un s).1 = Some (BvSort 8).
Proof.
  intros HI Hl Hc Hindex Hun. rewrite getReadForArray_term by done.
  by apply sort_of_read_term.
Qed.

(** *** What a call touches *)

Local Abbreviation touches_only := (touches_only (Base := Base)).

Lemma map_insert_lookup_ne `{Countable K} {V : Type} (k k' : K) (v : V)
    (m : gmap K V) :
  k ≠ k' -> map_insert k v m !! k' = m !! k'.
Proof.
  intros Hne. unfold map_insert. destruct (m !! k); [done|].
  by rewrite lookup_insert_ne.
Qed.

Lemma getArrayValues_frame root s :
  base_ (getArrayValues root s).2 = base_ s
  ∧ read_map_ (getArrayValues root s).2 = read_map_ s
  ∧ (∀ a, a ≠ array_id root ->
       array_variables_ (getArrayValues root s).2 !! a =
       array_variables_ s !! a)
  ∧ is_Some (array_variables_ (getArrayValues root s).2 !! array_id root).
Proof.
  destruct (array_variables_ s !! array_id root) as [v|] eqn:E.
  - rewrite (getArrayValues_hit _ _ _ E). simpl. by rewrite E.
  - rewrite getArrayValues_miss by done. simpl.
    repeat split; [|apply map_insert_is_Some].
    intros a Hne. by apply map_insert_lookup_ne.
Qed.

(** X6.  A read resolved with no update node leaves the members of the base
    class alone, touches no leaf vector but the one of its array and no
    entry of the read cache but the one of its key.  On a hit it changes
    nothing at all; on a miss it leaves its key and the leaf vector of its
    array cached. *)
Theorem X6_base_read_footprint index root s :
  let key := (index, (array_id root, None)) in
  let s' := (getReadForArray index root [] s).2 in
  base_ s' = base_ s
  ∧ (∀ a, a ≠ array_id root ->
       array_variables_ s' !! a = array_variables_ s !! a)
  ∧ (∀ k, k ≠ key -> read_map_ s' !! k = read_map_ s !! k)
  ∧ (is_Some (read_map_ s !! key) -> s' = s)
  ∧ (read_map_ s !! key = None ->
     read_map_ s' !! key = Some (getReadForArray index root [] s).1
     ∧ is_Some (array_variables_ s' !! array_id root)).
Proof.
  intros key s'. subst key s'.
  destruct (read_map_ s !! (index, (array_id root, None))) as [r|] eqn:E.
  - rewrite (getReadForArray_hit _ _ [] _ _ E). simpl.
    repeat split; done.
  - rewrite getReadForArray_nil_miss by done. cbv zeta.
    rewrite getReadForInitialArray_eq.
    destruct (getArrayValues_frame root s) as (Hb & Hr & Ha & Hc).
    cbn [fst snd insert_read_map base_ array_variables_ read_map_].
    split; [exact Hb|]. split; [exact Ha|]. split; [|split].
    + intros k Hne. rewrite map_insert_lookup_ne by done. by rewrite Hr.
    + intros [? ?]. done.
    + intros _. split; [|exact Hc].
      apply map_insert_lookup_None. by rewrite Hr.
Qed.

Lemma touches_only_ret {X : Type} (x : X) A K :
  touches_only (mret x) A K.
Proof. by intros s. Qed.

Lemma touches_only_gets {X : Type} (f : Z3IteBuilder Base -> X) A K :
  touches_only (gets f) A K.
Proof. by intros s. Qed.

Lemma touches_only_bind {X Y : Type} (m : M Base X) (f : X -> M Base Y) A K :
  touches_only m A K -> (∀ x, touches_only (f x) A K) ->
  touches_only (m ≫= f) A K.
Proof.
  intros Hm Hf s. unfold mbind, M_bind.
  destruct (Hm s) as [Ha Hk]. destruct (m s) as [x s1]. simpl in *.
  destruct (Hf x s1) as [Ha' Hk']. split.
  - intros a Hna. by rewrite Ha', Ha.
  - intros k Hnk. by rewrite Hk', Hk.
Qed.

Lemma touches_only_mono {X : Type} (m : M Base X)
    (A A' : ptr -> Prop) (K K' : ReadKey -> Prop) :
  (∀ a, A a -> A' a) -> (∀ k, K k -> K' k) ->
  touches_only m A K -> touches_only m A' K'.
Proof.
  intros HA HK Hm s. destruct (Hm s) as [Ha Hk]. split.
  - intros a Hna. apply Ha. intros ?. apply Hna. by apply HA.
  - intros k Hnk. apply Hk. intros ?. apply Hnk. by apply HK.
Qed.

Lemma touches_only_insert_read_map (k : ReadKey) (v : expr) A
    (K : ReadKey -> Prop) :
  K k -> touches_only (modify (insert_read_map k v)) A K.
Proof.
  intros Hk s. split; [done|]. intros k' Hnk. simpl.
  apply map_insert_lookup_ne. by intros ->.
Qed.

Lemma in_order_touches_only {X Y Z : Type} (o : arg_order)
    (a : M Base X) (b : M Base Y) (c : M Base Z) A K :
  touches_only a A K -> touches_only b A K -> touches_only c A K ->
  touches_only (in_order o a b c) A K.
Proof.
  intros Ha Hb Hc.
  destruct o; simpl;
    repeat (apply touches_only_bind; [done | intros ?]);
    apply touches_only_ret.
Qed.

Lemma getReadForInitialArray_touches_only index root A K :
  A (array_id root) -> touches_only (getReadForInitialArray index root) A K.
Proof.
  intros HA s. rewrite getReadForInitialArray_eq. cbn [snd].
  destruct (getArrayValues_frame root s) as (_ & Hr & Ha & _). split.
  - intros a Hna. apply Ha. by intros ->.
  - intros k _. by rewrite Hr.
Qed.

(** X7.  A read through a chain touches nothing but the leaf vector of its
    array, the entries of the read cache for its index and array at the
    nodes of its chain, and what the translation of the expressions of the
    chain touches. *)
Theorem X7_read_footprint index root un
    (A : ptr -> Prop) (K : ReadKey -> Prop) :
  (∀ e, touches_only (getOrMakeExpr e) A K) ->
  touches_only (getReadForArray index root un)
    (λ a, A a ∨ a = array_id root)
    (λ k, K k ∨ k ∈ suffix_keys index root un).
Proof.
  intros Hg. induction un as [|n next IH]; simpl.
  - apply touches_only_bind; [apply touches_only_gets|]. intros [r|].
    + apply touches_only_ret.
    + apply touches_only_bind.
      * apply getReadForInitialArray_touches_only. by right.
      * intros r. apply touches_only_bind; [|intros; apply touches_only_ret].
        apply touches_only_insert_read_map. right. by left.
  - apply touches_only_bind; [apply touches_only_gets|]. intros [r|].
    + apply touches_only_ret.
    + apply touches_only_bind.
      * apply touches_only_bind; [|intros [[? ?] ?]; apply touches_only_ret].
        apply in_order_touches_only.
        -- eapply touches_only_mono; [| |apply Hg]; naive_solver.
        -- eapply touches_only_mono; [| |apply Hg]; naive_solver.
        -- eapply touches_only_mono; [| |apply IH]; [naive_solver|].
           intros k [?|?]; [by left | right; by right].
      * intros r. apply touches_only_bind; [|intros; apply touches_only_ret].
        apply touches_only_insert_read_map. right. by left.
Qed.

(** *** Sharing of the older reads *)

Lemma ensures_bind_r {X Y : Type} (m : M Base X) (f : X -> M Base Y)
    (x : X) P :
  computes H m x -> ensures H (f x) P -> ensures H (m ≫= f) P.
Proof.
  intros Hm Hf s HI. unfold mbind, M_bind.
  destruct (Hm s HI) as [E HI']. destruct (m s) as [x' s1].
  simpl in *. subst x'. by apply Hf.
Qed.

Lemma ensures_bind_l {X Y : Type} (m : M Base X) (f : X -> M Base Y) P :
  (∀ s s', grows s s' -> P s -> P s') ->
  ensures H m P -> (∀ x, growing (f x)) -> ensures H (m ≫= f) P.
Proof.
  intros Hup Hm Hf s HI. unfold mbind, M_bind.
  specialize (Hm s HI). destruct (m s) as [x s1]. simpl in *.
  eapply Hup; [apply Hf | exact Hm].
Qed.

Lemma in_order_ensures {X Y Z : Type} (o : arg_order)
    (a : M Base X) (b : M Base Y) (c : M Base Z) (x : X) (y : Y) P :
  (∀ s s', grows s s' -> P s -> P s') ->
  computes H a x -> computes H b y -> growing a -> growing b ->
  ensures H c P -> ensures H (in_order o a b c) P.
Proof.
  intros Hup Ha Hb Hga Hgb Hc.
  destruct o; simpl;
    repeat first
      [ eapply ensures_bind_r; [done|]
      | apply ensures_bind_l; [done | done |];
        intros; repeat (apply growing_bind; [done | intros ?]);
        apply growing_ret ].
Qed.

(** X8.  When a read through a chain misses the cache, the term it returns
    is the conditional of the newest update over the term of the read at
    the next older node, and that very term is in the read cache afterwards
    under the key of the older node: the older read is shared, not built
    again. *)
Theorem X8_else_branch_is_the_cached_read index root (n : UpdateNode) next s :
  Inv H s -> live_array H root -> live_chain H (n :: next) ->
  read_map_ s !! (index, (array_id root, Some (node_id n))) = None ->
  ∃ rest,
    (getReadForArray index root (n :: next) s).1 =
      Ite (Eq index (translate (un_index n))) (translate (un_value n)) rest
    ∧ read_map_ (getReadForArray index root (n :: next) s).2
        !! (index, (array_id root, un_key next)) = Some rest
    ∧ ∀ md : model,
        eval md index ≠ eval md (translate (un_index n)) ->
        eval md (getReadForArray index root (n :: next) s).1 = eval md rest.
Proof.
  intros HI Hl Hc Hmiss. exists (read_term index root next).
  pose proof (live_chain_tail _ _ Hc) as Hc'.
  rewrite getReadForArray_cons_miss by done. cbv zeta.
  pose proof (in_order_computes order _ _ _ _ _ _
                (getOrMakeExpr_computes (un_index n))
                (getOrMakeExpr_computes (un_value n))
                (getReadForArray_computes index root next Hl Hc') s HI)
    as [Eargs _].
  assert (ensures H (getReadForArray index root next)
            (λ s1, read_map_ s1 !! (index, (array_id root, un_key next)) =
                   Some (read_term index root next))) as Hcached.
  { intros s1 HI1.
    rewrite (getReadForArray_cached index root next s1 Hl Hc' HI1).
    by rewrite getReadForArray_term. }
  pose proof (in_order_ensures order
                (getOrMakeExpr (un_index n)) (getOrMakeExpr (un_value n))
                (getReadForArray index root next) _ _ _
                (λ s1 s2 Hg E, lookup_weaken _ _ _ _ E (proj2 Hg))
                (getOrMakeExpr_computes (un_index n))
                (getOrMakeExpr_computes (un_value n))
                (getOrMakeExpr_growing (un_index n))
                (getOrMakeExpr_growing (un_value n))
                Hcached s HI) as Hrest.
  rewrite Eargs. cbn [fst snd]. split; [done|]. split.
  - cbn [insert_read_map read_map_].
    eapply lookup_weaken; [exact Hrest | apply map_insert_subseteq].
  - intros md Hne. cbn [eval].
    destruct (Z.eqb_spec (eval md index)
                (eval md (translate (un_index n)))) as [E|E]; done.
Qed.

(** *** The leaves *)

(** X9.  The leaf of a constant array at an offset is the 8-bit numeral of
    the low byte of the stored value: a value of more than 8 bits is cut
    down to its 8 low bits. *)
Theorem X9_constant_leaf_is_the_low_byte root s (i : N) (v : Z) :
  Inv H s -> live_array H root -> isConstantArray root = true ->
  (i < size root)%N -> constantValues root !! N.to_nat i = Some v ->
  (getArrayValues root s).1 !! N.to_nat i = Some (Numeral (v mod 256) 8)
  ∧ ∀ md : model,
      eval md ((getArrayValues root s).1 !!! N.to_nat i) = (v mod 256)%Z.
Proof.
  intros HI Hl Hc Hi Hv.
  destruct (getArrayValues_computes root Hl s HI) as [-> _].
  assert (leaf root i = Numeral (v mod 256) 8) as Hleaf.
  { unfold_leaves. rewrite Hc, (list_lookup_total_correct _ _ _ Hv).
    unfold bv_val, to_unsigned. f_equal.
    apply Z.mod_mod_divide. by exists (2 ^ 24)%Z. }
  rewrite makeArrayValues_lookup_total, makeArrayValues_lookup by done.
  rewrite Hleaf. split; [done|]. intros md. cbn [eval in_sort].
  apply Z.mod_small. apply (Z.mod_pos_bound v 256). lia.
Qed.

(** X10.  The leaves of a symbolic array at two different offsets are
    different constants, as long as neither name is cut by the buffer of
    [snprintf]. *)
Theorem X10_leaf_names_are_distinct root s (i j : N) (li lj : expr) :
  let full k :=
    c_str (name root) +:+ "_" +:+ format_pointer (array_id root)
      +:+ "_" +:+ pretty k in
  isConstantArray root = false ->
  array_variables_ s !! array_id root = None ->
  String.length (full i) ≤ 255 -> String.length (full j) ≤ 255 ->
  i ≠ j ->
  (getArrayValues root s).1 !! N.to_nat i = Some li ->
  (getArrayValues root s).1 !! N.to_nat j = Some lj ->
  li ≠ lj.
Proof.
  intros full Hsym Hmiss Hleni Hlenj Hne.
  rewrite getArrayValues_miss by done. cbn [fst].
  rewrite makeArrayValues_fmap, !list_lookup_fmap.
  intros Hi Hj.
  destruct (seq 0 (N.to_nat (size root)) !! N.to_nat i) as [i'|] eqn:Ei;
    [|done].
  destruct (seq 0 (N.to_nat (size root)) !! N.to_nat j) as [j'|] eqn:Ej;
    [|done].
  apply lookup_seq in Ei as [-> _]. apply lookup_seq in Ej as [-> _].
  simpl in Hi, Hj. rewrite !N2Nat.id in *.
  injection Hi as <-. injection Hj as <-.
  unfold_leaves. rewrite Hsym. unfold bv_const. unfold_names.
  fold (full i). fold (full j).
  rewrite !substring_all by done. intros [= E]. apply Hne.
  subst full. simpl in E.
  do 4 apply String.app_inj in E. by apply pretty_N_inj in E.
Qed.

(** X11.  When the name of a symbolic array fills the buffer of [snprintf]
    (255 characters or more before the first NUL), identity and offset are
    cut off and every leaf of the array is the same constant. *)
Theorem X11_long_names_collide root s (i : N) :
  isConstantArray root = false ->
  array_variables_ s !! array_id root = None ->
  255 ≤ String.length (c_str (name root)) ->
  (i < size root)%N ->
  (getArrayValues root s).1 !! N.to_nat i =
  Some (Const (substring 0 255 (c_str (name root))) (BvSort 8)).
Proof.
  intros Hsym Hmiss Hlen Hi.
  rewrite getArrayValues_miss by done. cbn [fst].
  rewrite makeArrayValues_lookup by done.
  unfold_leaves. rewrite Hsym. unfold bv_const. unfold_names.
  by rewrite substring_app.
Qed.

(** *** Sessions and read expressions *)

(** X12.  After any session of calls on live arrays and chains, started
    from a new builder, every cached leaf vector of a live array has one
    leaf per offset, the leaf of that offset, and every cached read of a
    live array and chain evaluates as the read through the chain. *)
Theorem X12_sessions_keep_the_caches_sound calls (base : Base) :
  Forall (live_call H) calls ->
  let s := run calls (new_builder base) in
  (∀ root elem_vector,
     live_array H root ->
     array_variables_ s !! array_id root = Some elem_vector ->
     length elem_vector = N.to_nat (size root)
     ∧ ∀ i : N, (i < size root)%N ->
         elem_vector !! N.to_nat i = Some (leaf root i))
  ∧ (∀ index root un r (md : model),
       live_array H root -> live_chain H un -> (size root < 2 ^ 32)%N ->
       read_map_ s !! (index, (array_id root, un_key un)) = Some r ->
       eval md r =
       chain_value md index un (initial_value md root (eval md index))).
Proof.
  intros Hlive s.
  assert (Inv H s) as [Ha Hr]
    by (apply run_Inv; [done | apply Inv_new_builder]).
  split.
  - intros root elem_vector Hl E. rewrite (Ha root elem_vector Hl E).
    split; [apply makeArrayValues_length|].
    intros i Hi. by apply makeArrayValues_lookup.
  - intros index root un r md Hl Hc Hsz E.
    rewrite (Hr index root un r Hl Hc E). by apply eval_read_term.
Qed.

(** X13.  [makeReadExpr] translates the index of the read expression and
    resolves the read at the translated index: the term it returns
    evaluates as the read through the chain, it is cached afterwards under
    the translated index, the array and the head of the chain, and the
    state stays sound. *)
Theorem X13_makeReadExpr_resolves_the_read re s (md : model) :
  Inv H s -> live_array H (updates_root re) ->
  live_chain H (updates_head re) -> (size (updates_root re) < 2 ^ 32)%N ->
  let index := translate (re_index re) in
  let r := (makeReadExpr re s).1 in
  let s' := (makeReadExpr re s).2 in
  eval md r =
    chain_value md index (updates_head re)
      (initial_value md (updates_root re) (eval md index))
  ∧ read_map_ s' !! (index, (array_id (updates_root re),
                             un_key (updates_head re))) = Some r
  ∧ Inv H s'.
Proof.
  intros HI Hl Hc Hsz index r s'. subst index r s'.
  unfold_makeReadExpr.
  destruct (getOrMakeExpr_computes (re_index re) s HI) as [Ei HI1].
  destruct (getOrMakeExpr (re_index re) s) as [i s1]. simpl in Ei, HI1.
  subst i.
  pose proof (getReadForArray_cached (translate (re_index re)) _ _ s1
                Hl Hc HI1) as Hcached.
  destruct (getReadForArray_computes (translate (re_index re)) _ _ Hl Hc
              s1 HI1) as [Er HI'].
  split; [|split; [exact Hcached | exact HI']].
  rewrite Er. by apply eval_read_term.
Qed.

End Sound.

End Growing.

End Correctness.

(** X14.  The term of a read depends neither on what the caches hold nor
    on the order in which the compiler evaluates the arguments of
    [Z3_mk_ite]: from two sound states and under two orders, the same read
    returns the same term. *)
Theorem X14_cache_and_order_do_not_change_the_term {Base KExpr : Type}
    (getOrMakeExpr : KExpr -> M Base expr) (format_pointer : ptr -> string)
    (translate : KExpr -> expr) (H : Heap) (o1 o2 : arg_order)
    (index : expr) (root : Array) (un : list (UpdateNode KExpr))
    (s1 s2 : Z3IteBuilder Base) :
  (∀ e, computes format_pointer translate H (getOrMakeExpr e)
          (translate e)) ->
  Inv format_pointer translate H s1 -> Inv format_pointer translate H s2 ->
  live_array H root -> live_chain H un ->
  (getReadForArray getOrMakeExpr o1 format_pointer index root un s1).1 =
  (getReadForArray getOrMakeExpr o2 format_pointer index root un s2).1.
Proof.
  intros Hg HI1 HI2 Hl Hc.
  rewrite (getReadForArray_term getOrMakeExpr o1 format_pointer translate H
             Hg index root un s1 HI1 Hl Hc).
  by rewrite (getReadForArray_term getOrMakeExpr o2 format_pointer translate
                H Hg index root un s2 HI2 Hl Hc).
Qed.

(** * The claims on the small session *)

Import Examples.

Lemma examples_growing : ∀ e, growing (getOrMakeExpr e).
Proof. intros e s. by split. Qed.

Lemma examples_computes (H : Heap) :
  ∀ e, computes format_pointer translate H (getOrMakeExpr e) (translate e).
Proof. intros e s HI. by split. Qed.

Lemma used_builder_Inv : Inv format_pointer translate heap used_builder.
Proof.
  apply run_Inv.
  - apply examples_computes.
  - repeat constructor.
  - apply Inv_new_builder.
Qed.

Lemma used_builder_has_entries :
  array_variables_ used_builder !! 4096%N =
    Some [bv_const "arr_0x1000_0" 8; bv_const "arr_0x1000_1" 8]
  ∧ read_map_ used_builder !! (bv_val 0 32, (12288%N, None)) =
    Some (Ite (Eq (bv_val 0 32) (bv_val 0 32)) (bv_val 7 8) (bv_val 0 8))
  ∧ is_Some (read_map_ used_builder !! (x, (8192%N, Some 256%N)))
  ∧ is_Some (read_map_ used_builder !! (x, (8192%N, Some 512%N)))
  ∧ is_Some (read_map_ used_builder !! (x, (8192%N, None))).
Proof. vm_compute. repeat split; by eexists. Qed.

(** The scenario of the specification: the constant array
    [10; 20; 30; 40] under the single update [(2, 99)] reads 99 at index 2,
    10 at index 0, and 40 at a symbolic index equal to 3. *)
Example scenario_of_the_specification :
  let read index :=
    (getReadForArray getOrMakeExpr Order123 format_pointer index const4
       [un0] (new_builder 0)).1 in
  eval (model_of 0) (read (bv_val 2 32)) = 99%Z
  ∧ eval (model_of 0) (read (bv_val 0 32)) = 10%Z
  ∧ eval (model_of 3) (read x) = 40%Z.
Proof. vm_compute. repeat split. Qed.

(** The order in which the arguments of [Z3_mk_ite] are evaluated changes
    neither the term nor the read cache. *)
Example orders_agree :
  let call o :=
    getReadForArray getOrMakeExpr o format_pointer x const4 [un0; un1]
      (new_builder 0) in
  Forall (λ o, (call o).1 = (call Order123).1
               ∧ read_map_ (call o).2 = read_map_ (call Order123).2)
    [Order132; Order213; Order231; Order312; Order321].
Proof. repeat constructor. Qed.

(** The base read of the symbolic array of two bytes: offset 1 is tested
    first, offset 0 last, and an index that is no offset gives 0. *)
Lemma C1_witness :
  (size sym2 < 2 ^ 32)%N
  ∧ ¬ (0 ≤ eval (model_of 5) x < Z.of_N (size sym2))%Z
  ∧ read_map_ (new_builder 0) !! (x, (array_id sym2, None)) = None
  ∧ (getReadForArray getOrMakeExpr Order321 format_pointer x sym2 []
       (new_builder 0)).1 =
    Ite (Eq x (bv_val 1 32)) (bv_const "arr_0x1000_1" 8)
      (Ite (Eq x (bv_val 0 32)) (bv_const "arr_0x1000_0" 8) (bv_val 0 8))
  ∧ eval (model_of 5)
      (getReadForInitialArray format_pointer x sym2 (new_builder 0)).1 = 0%Z.
Proof.
  destruct (C1_base_read_is_ite_chain getOrMakeExpr Order321 format_pointer
              x sym2 (new_builder 0)) as (Hr & _ & _ & _ & Hzero & Hread).
  assert ((size sym2 < 2 ^ 32)%N) as Hsz by reflexivity.
  assert (¬ (0 ≤ eval (model_of 5) x < Z.of_N (size sym2))%Z) as Hout
    by (vm_compute; intros [_ Hlt]; discriminate Hlt).
  split; [exact Hsz|]. split; [exact Hout|]. split; [reflexivity|]. split.
  - rewrite (Hread eq_refl). rewrite Hr. reflexivity.
  - exact (Hzero (model_of 5) Hsz Hout).
Defined.

(** C1 as stated fails on the symbolic array of two bytes: the term is not
    the chain the claim describes, its outermost test is the one of offset 1
    and not of offset 0, its innermost default is the constant 0 and not the
    last leaf, and where the index is 5 it evaluates to 0 while the last
    leaf evaluates to 7. *)
Lemma C1_counterexample :
  let r := (getReadForArray getOrMakeExpr Order321 format_pointer x sym2 []
              (new_builder 0)).1 in
  let elem_vector := (getArrayValues format_pointer sym2 (new_builder 0)).1 in
  r ≠ spec_ite_chain x elem_vector 2
  ∧ head (else_spine r) = Some (Eq x (bv_val 1 32))
  ∧ head (else_spine r) ≠ Some (Eq x (bv_val 0 32))
  ∧ else_end r = bv_val 0 8
  ∧ else_end r ≠ elem_vector !!! 1
  ∧ eval (model_of 5) r = 0%Z
  ∧ eval (model_of 5) (elem_vector !!! 1) = 7%Z.
Proof. vm_compute. repeat split; discriminate. Qed.

(** The scenario of the specification: every byte of [10; 20; 30; 40] is
    read back at its offset. *)
Lemma C3_witness :
  Inv format_pointer translate heap used_builder
  ∧ live_array heap const4 ∧ wf_array const4
  ∧ isConstantArray const4 = true
  ∧ Forall (λ v, (0 ≤ v < 256)%Z) (constantValues const4)
  ∧ (3 < size const4)%N
  ∧ eval (model_of 0)
      (getReadForArray getOrMakeExpr Order321 format_pointer
         (bv_val 3 32) const4 [] used_builder).1 = 40%Z
  ∧ eval (model_of 3)
      (getReadForArray getOrMakeExpr Order321 format_pointer
         x const4 [] used_builder).1 = 40%Z.
Proof.
  assert (wf_array const4) as Hwf by (split; reflexivity).
  assert (Forall (λ v, (0 ≤ v < 256)%Z) (constantValues const4)) as Hbytes
    by (repeat constructor; discriminate).
  do 6 (split; [first [exact used_builder_Inv | exact Hwf | exact Hbytes
                      | reflexivity]|]).
  split.
  - exact (proj1
             (C3_constant_array_read getOrMakeExpr Order321 format_pointer
                translate heap const4 used_builder (model_of 0) 3
                used_builder_Inv eq_refl Hwf eq_refl Hbytes eq_refl)).
  - exact (proj2
             (C3_constant_array_read getOrMakeExpr Order321 format_pointer
                translate heap const4 used_builder (model_of 3) 3
                used_builder_Inv eq_refl Hwf eq_refl Hbytes eq_refl)
             x eq_refl).
Defined.

(** The array of one byte, read at the cached index 0 from a builder that
    has resolved that read before. *)
Lemma C5_witness :
  Inv format_pointer translate heap used_builder
  ∧ live_array heap const1 ∧ size const1 = 1%N
  ∧ (getReadForArray getOrMakeExpr Order321 format_pointer (bv_val 0 32)
       const1 [] used_builder).1 =
    Ite (Eq (bv_val 0 32) (bv_val 0 32)) (bv_val 7 8) (bv_val 0 8)
  ∧ eval (model_of 0)
      (getReadForArray getOrMakeExpr Order321 format_pointer x
         const1 [] used_builder).1 = 7%Z
  ∧ eval (model_of 1)
      (getReadForArray getOrMakeExpr Order321 format_pointer x
         const1 [] used_builder).1 = 0%Z.
Proof.
  split; [exact used_builder_Inv|]. split; [reflexivity|].
  split; [reflexivity|]. split; [|split].
  - exact (proj1 (C5_size_one_read getOrMakeExpr Order321 format_pointer
                    translate heap (bv_val 0 32) const1 used_builder
                    used_builder_Inv eq_refl eq_refl)).
  - exact (proj2 (C5_size_one_read getOrMakeExpr Order321 format_pointer
                    translate heap x const1 used_builder used_builder_Inv
                    eq_refl eq_refl) (model_of 0)).
  - exact (proj2 (C5_size_one_read getOrMakeExpr Order321 format_pointer
                    translate heap x const1 used_builder used_builder_Inv
                    eq_refl eq_refl) (model_of 1)).
Defined.

(** C5 as stated fails on the constant array [7]: the read at the concrete
    index 1 is not the leaf, it evaluates to 0 while the leaf is 7, and the
    read at index 0 evaluates to 7, so the result depends on the index. *)
Lemma C5_counterexample :
  let read index :=
    (getReadForArray getOrMakeExpr Order321 format_pointer index const1 []
       (new_builder 0)).1 in
  let the_leaf :=
    (getArrayValues format_pointer const1 (new_builder 0)).1 !!! 0 in
  size const1 = 1%N
  ∧ the_leaf = bv_val 7 8
  ∧ read (bv_val 1 32) ≠ the_leaf
  ∧ eval (model_of 0) (read (bv_val 1 32)) = 0%Z
  ∧ eval (model_of 0) the_leaf = 7%Z
  ∧ eval (model_of 0) (read (bv_val 0 32)) = 7%Z.
Proof. vm_compute. repeat split; discriminate. Qed.

(** The scenario of the specification with one more update: over
    [10; 20; 30; 40] and the chain [(2, 99); (1, 55)], the read at index 2
    is 99, and the read at an index equal to 3 is 40. *)
Lemma C2_witness :
  Inv format_pointer translate heap used_builder
  ∧ live_array heap const4 ∧ live_chain heap [un0; un1]
  ∧ (size const4 < 2 ^ 32)%N
  ∧ eval (model_of 3) x ≠ eval (model_of 3) (bv_val 2 32)
  ∧ eval (model_of 3) x ≠ eval (model_of 3) (bv_val 1 32)
  ∧ (0 ≤ eval (model_of 3) x < Z.of_N (size const4))%Z
  ∧ eval (model_of 3)
      (getReadForArray getOrMakeExpr Order321 format_pointer
         (bv_val 2 32) const4 [un0; un1] used_builder).1 = 99%Z
  ∧ eval (model_of 3)
      (getReadForArray getOrMakeExpr Order321 format_pointer
         x const4 [un0; un1] used_builder).1 = 40%Z.
Proof.
  assert (live_chain heap [un0; un1]) as Hchain by (repeat split).
  assert (eval (model_of 3) x ≠ eval (model_of 3) (bv_val 2 32)) as Hne0
    by (vm_compute; discriminate).
  assert (eval (model_of 3) x ≠ eval (model_of 3) (bv_val 1 32)) as Hne1
    by (vm_compute; discriminate).
  assert ((0 ≤ eval (model_of 3) x < Z.of_N (size const4))%Z) as Hin
    by (vm_compute; split; [discriminate | reflexivity]).
  destruct (C2_read_over_write getOrMakeExpr Order321 format_pointer translate
              heap
              (examples_computes heap) const4 un0 un1 used_builder
              (model_of 3) used_builder_Inv eq_refl Hchain eq_refl)
    as (Hhit & _ & Hmiss).
  split; [exact used_builder_Inv|]. split; [reflexivity|].
  split; [exact Hchain|]. split; [reflexivity|].
  split; [exact Hne0|]. split; [exact Hne1|]. split; [exact Hin|].
  split; [exact Hhit|].
  exact (proj2 (Hmiss x Hne0 Hne1) Hin).
Defined.

(** A read resolved twice from a new builder, and once more after reads of
    other arrays. *)
Lemma C4_witness :
  let first :=
    getReadForArray getOrMakeExpr Order321 format_pointer x const4
      [un0; un1] (new_builder 0) in
  let later :=
    run getOrMakeExpr Order321 format_pointer
      [CallGetInitialRead sym2 0%N; CallGetReadForArray x const1 []]
      first.2 in
  (∀ e, growing (getOrMakeExpr e))
  ∧ (∀ e, computes format_pointer translate heap (getOrMakeExpr e)
            (translate e))
  ∧ Inv format_pointer translate heap (new_builder 0)
  ∧ live_array heap const4 ∧ live_chain heap [un0; un1]
  ∧ getReadForArray getOrMakeExpr Order321 format_pointer x const4
      [un0; un1] first.2 = (first.1, first.2)
  ∧ getReadForArray getOrMakeExpr Order321 format_pointer x const4
      [un0; un1] later = (first.1, later).
Proof.
  intros first later.
  assert (live_chain heap [un0; un1]) as Hchain by (repeat split).
  destruct (C4_second_call_returns_cached getOrMakeExpr Order321
              format_pointer translate examples_growing heap
              (examples_computes heap) x const4 [un0; un1] (new_builder 0)
              (Inv_new_builder format_pointer translate heap 0)
              eq_refl Hchain) as (_ & Hsecond & _ & Hlater).
  split; [exact examples_growing|]. split; [exact (examples_computes heap)|].
  split; [apply Inv_new_builder|]. split; [reflexivity|].
  split; [exact Hchain|]. split; [exact Hsecond|].
  exact (Hlater [CallGetInitialRead sym2 0%N; CallGetReadForArray x const1 []]).
Defined.

(** The entry of an older read survives a new read of another array. *)
Lemma C6_witness :
  (∀ e, growing (getOrMakeExpr e))
  ∧ read_map_ used_builder !! (bv_val 0 32, (12288%N, None)) =
    Some (Ite (Eq (bv_val 0 32) (bv_val 0 32)) (bv_val 7 8) (bv_val 0 8))
  ∧ read_map_
      (getReadForArray getOrMakeExpr Order321 format_pointer x sym2 []
         used_builder).2 !! (bv_val 0 32, (12288%N, None)) =
    Some (Ite (Eq (bv_val 0 32) (bv_val 0 32)) (bv_val 7 8) (bv_val 0 8)).
Proof.
  split; [exact examples_growing|]. split; [reflexivity|].
  exact (proj1 (proj2
           (C6_read_map_only_grows getOrMakeExpr Order321 format_pointer
              examples_growing x sym2 [] used_builder))
           (bv_val 0 32, (12288%N, None)) _ eq_refl).
Defined.

(** The leaf vector of the constant array of four bytes, queried twice and
    once more after a read of another array. *)
Lemma C7_witness :
  let first := getArrayValues format_pointer const4 (new_builder 0) in
  let later :=
    run getOrMakeExpr Order321 format_pointer
      [CallGetReadForArray x sym2 []] first.2 in
  (∀ e, growing (getOrMakeExpr e))
  ∧ Inv format_pointer translate heap (new_builder 0)
  ∧ live_array heap const4
  ∧ length first.1 = 4
  ∧ getArrayValues format_pointer const4 first.2 = (first.1, first.2)
  ∧ getArrayValues format_pointer const4 later = (first.1, later).
Proof.
  intros first later.
  destruct (C7_leaf_vector_cached getOrMakeExpr Order321 format_pointer
              translate examples_growing heap const4 (new_builder 0)
              (Inv_new_builder format_pointer translate heap 0) eq_refl)
    as (Hlen & _ & Hsecond & Hlater).
  split; [exact examples_growing|]. split; [apply Inv_new_builder|].
  split; [reflexivity|]. split; [exact Hlen|]. split.
  - apply Hsecond. by split.
  - exact (Hlater [CallGetReadForArray x sym2 []]).
Defined.



(** Reads past the end of [10; 20; 30; 40], and a read of the empty
    array. *)
Lemma C9_witness :
  Inv format_pointer translate heap used_builder
  ∧ live_array heap const4 ∧ (size const4 < 2 ^ 32)%N
  ∧ (Z.of_N (size const4) ≤ 4 mod 2 ^ 32)%Z
  ∧ eval (model_of 0)
      (getReadForArray getOrMakeExpr Order321 format_pointer (bv_val 4 32)
         const4 [] used_builder).1 = 0%Z
  ∧ size empty0 = 0%N
  ∧ (getReadForArray getOrMakeExpr Order321 format_pointer x empty0 []
       used_builder).1 = Numeral 0 8.
Proof.
  assert ((Z.of_N (size const4) ≤ 4 mod 2 ^ 32)%Z) as Hout
    by (vm_compute; discriminate).
  split; [exact used_builder_Inv|]. split; [reflexivity|].
  split; [reflexivity|]. split; [exact Hout|]. split; [|split].
  - exact (proj2 (proj2
             (C9_default_is_zero getOrMakeExpr Order321 format_pointer
                translate heap
                const4 used_builder used_builder_Inv eq_refl eq_refl))
             4%Z (model_of 0) Hout).
  - reflexivity.
  - exact (proj1 (proj2
             (C9_default_is_zero getOrMakeExpr Order321 format_pointer
                translate heap
                empty0 used_builder used_builder_Inv eq_refl eq_refl))
             eq_refl x).
Defined.

(** The base read of [10; 20; 30; 40] at a 32-bit index is well-sorted,
    and its well-sortedness gives back the sort of the index. *)
Lemma C10_witness :
  let r := (getReadForInitialArray format_pointer x const4 (new_builder 0)).1 in
  Inv format_pointer translate heap (new_builder 0)
  ∧ live_array heap const4
  ∧ sort_of x = Some (BvSort 32)
  ∧ size const4 ≠ 0%N
  ∧ well_sorted r
  ∧ sort_of r = Some (BvSort 8)
  ∧ (well_sorted r -> sort_of x = Some (BvSort 32)).
Proof.
  intros r.
  destruct (C10_index_sort format_pointer translate heap x const4
              (new_builder 0) (Inv_new_builder format_pointer translate heap 0)
              eq_refl) as (_ & _ & Hif & Honly).
  assert (size const4 ≠ 0%N) as Hnz by discriminate.
  split; [apply Inv_new_builder|]. split; [reflexivity|].
  split; [reflexivity|]. split; [exact Hnz|].
  split; [exists (BvSort 8); exact (Hif eq_refl)|].
  split; [exact (Hif eq_refl)|]. exact (Honly Hnz).
Defined.

(** C10 as stated fails on the empty array: there is no test, the base
    read is the constant 0 and is well-sorted, although the index has 64
    bits. *)
Lemma C10_counterexample :
  let r :=
    (getReadForInitialArray format_pointer x64 empty0 (new_builder 0)).1 in
  r = bv_val 0 8
  ∧ well_sorted r
  ∧ sort_of x64 = Some (BvSort 64)
  ∧ ¬ (well_sorted r -> sort_of x64 = Some (BvSort 32)).
Proof.
  vm_compute. split; [reflexivity|]. split; [by eexists|].
  split; [reflexivity|]. intros Himp.
  assert (Some (BvSort 64) = Some (BvSort 32)) as E
    by (apply Himp; by eexists).
  discriminate E.
Qed.

(** * More of the builder on the small session *)

Lemma examples_touch_nothing :
  ∀ e, touches_only (getOrMakeExpr e) (λ _, False) (λ _, False).
Proof. by intros e s. Qed.

Lemma examples_live_chain : live_chain heap [un0; un1].
Proof. repeat split. Qed.

(** Over [10; 20; 30; 40] and the chain [(2, 99); (1, 55)]: an index equal
    to 1 reads the older update, an index equal to 3 the base array, and an
    index equal to 9 reads 0. *)
Lemma X1_witness :
  let read v :=
    eval (model_of v)
      (getReadForArray getOrMakeExpr Order213 format_pointer x const4
         [un0; un1] used_builder).1 in
  Inv format_pointer translate heap used_builder
  ∧ live_array heap const4 ∧ live_chain heap [un0; un1]
  ∧ (size const4 < 2 ^ 32)%N
  ∧ read 1%Z = 55%Z ∧ read 3%Z = 40%Z ∧ read 9%Z = 0%Z.
Proof.
  intros read.
  pose proof (λ v, X1_read_over_write_chain getOrMakeExpr Order213
                     format_pointer translate heap (examples_computes heap)
                     x const4 [un0; un1] used_builder (model_of v)
                     used_builder_Inv eq_refl examples_live_chain eq_refl)
    as Hread.
  split; [exact used_builder_Inv|]. split; [reflexivity|].
  split; [exact examples_live_chain|]. split; [reflexivity|].
  split; [exact (Hread 1%Z)|]. split; [exact (Hread 3%Z) | exact (Hread 9%Z)].
Defined.

(** The symbolic index [x], equal to 2 in the model, reads as the concrete
    index 2 does, from a new builder and from a used one. *)
Lemma X2_witness :
  Inv format_pointer translate heap (new_builder 0)
  ∧ Inv format_pointer translate heap used_builder
  ∧ live_array heap const4 ∧ live_chain heap [un0; un1]
  ∧ eval (model_of 2) x = eval (model_of 2) (bv_val 2 32)
  ∧ eval (model_of 2)
      (getReadForArray getOrMakeExpr Order321 format_pointer x const4
         [un0; un1] (new_builder 0)).1 =
    eval (model_of 2)
      (getReadForArray getOrMakeExpr Order321 format_pointer (bv_val 2 32)
         const4 [un0; un1] used_builder).1.
Proof.
  split; [apply Inv_new_builder|]. split; [exact used_builder_Inv|].
  split; [reflexivity|]. split; [exact examples_live_chain|].
  split; [reflexivity|].
  exact (X2_equal_indices_equal_reads getOrMakeExpr Order321 format_pointer
           translate heap (examples_computes heap) x (bv_val 2 32) const4
           [un0; un1] (new_builder 0) used_builder (model_of 2)
           (Inv_new_builder format_pointer translate heap 0)
           used_builder_Inv eq_refl examples_live_chain eq_refl).
Defined.

(** The initial read of the symbolic array at offset 1. *)
Lemma X3_witness :
  Inv format_pointer translate heap (new_builder 0)
  ∧ live_array heap sym2 ∧ (1 < size sym2)%N ∧ (size sym2 < 2 ^ 32)%N
  ∧ (getInitialRead format_pointer sym2 1 (new_builder 0)).1 =
    Some (bv_const "arr_0x1000_1" 8)
  ∧ eval (model_of 0)
      (getReadForArray getOrMakeExpr Order321 format_pointer (bv_val 1 32)
         sym2 [] (new_builder 0)).1 = 7%Z.
Proof.
  destruct (X3_getInitialRead_in_range getOrMakeExpr Order321 format_pointer
              translate heap sym2 1 (new_builder 0) (model_of 0)
              (Inv_new_builder format_pointer translate heap 0)
              eq_refl eq_refl eq_refl) as (Hleaf & _ & Hread).
  split; [apply Inv_new_builder|]. do 3 (split; [reflexivity|]).
  split; [exact Hleaf | exact Hread].
Defined.

(** The tests of the read of the scenario, in order. *)
Lemma X4_witness :
  Inv format_pointer translate heap used_builder
  ∧ live_array heap const4 ∧ live_chain heap [un0; un1]
  ∧ else_spine
      (getReadForArray getOrMakeExpr Order321 format_pointer x const4
         [un0; un1] used_builder).1 =
    [Eq x (bv_val 2 32); Eq x (bv_val 1 32);
     Eq x (bv_val 3 32); Eq x (bv_val 2 32);
     Eq x (bv_val 1 32); Eq x (bv_val 0 32)].
Proof.
  split; [exact used_builder_Inv|]. split; [reflexivity|].
  split; [exact examples_live_chain|].
  exact (proj1 (X4_tests_of_a_read getOrMakeExpr Order321 format_pointer
                  translate heap (examples_computes heap) x const4
                  [un0; un1] used_builder used_builder_Inv eq_refl
                  examples_live_chain)).
Defined.

(** The read of the scenario at a 32-bit index is well-sorted. *)
Lemma X5_witness :
  Inv format_pointer translate heap used_builder
  ∧ live_array heap const4 ∧ live_chain heap [un0; un1]
  ∧ sort_of x = Some (BvSort 32)
  ∧ well_sorted_chain translate [un0; un1]
  ∧ sort_of
      (getReadForArray getOrMakeExpr Order321 format_pointer x const4
         [un0; un1] used_builder).1 = Some (BvSort 8).
Proof.
  assert (well_sorted_chain translate [un0; un1]) as Hsorts
    by (repeat constructor).
  split; [exact used_builder_Inv|]. split; [reflexivity|].
  split; [exact examples_live_chain|]. split; [reflexivity|].
  split; [exact Hsorts|].
  exact (X5_read_is_well_sorted getOrMakeExpr Order321 format_pointer
           translate heap (examples_computes heap) x const4 [un0; un1]
           used_builder used_builder_Inv eq_refl examples_live_chain
           eq_refl Hsorts).
Defined.

(** A base read of the symbolic array from the used builder: the read of
    the array of one byte stays cached, and the new read is cached. *)
Lemma X6_witness :
  let call :=
    getReadForArray getOrMakeExpr Order321 format_pointer x sym2 []
      used_builder in
  (bv_val 0 32, (12288%N, None)) ≠@{ReadKey} (x, (array_id sym2, None))
  ∧ read_map_ used_builder !! (x, (array_id sym2, None)) = None
  ∧ read_map_ call.2 !! (bv_val 0 32, (12288%N, None)) =
    read_map_ used_builder !! (bv_val 0 32, (12288%N, None))
  ∧ read_map_ call.2 !! (x, (array_id sym2, None)) = Some call.1.
Proof.
  intros call.
  destruct (X6_base_read_footprint getOrMakeExpr Order321 format_pointer
              x sym2 used_builder) as (_ & _ & Hother & _ & Hmiss).
  assert ((bv_val 0 32, (12288%N, None)) ≠@{ReadKey}
          (x, (array_id sym2, None))) as Hne by discriminate.
  split; [exact Hne|]. split; [reflexivity|].
  split; [exact (Hother _ Hne) | exact (proj1 (Hmiss eq_refl))].
Defined.

(** A read through the chain at a new index leaves the cached read of the
    array of one byte as it is. *)
Lemma X7_witness :
  let call :=
    getReadForArray getOrMakeExpr Order321 format_pointer (bv_val 5 32)
      const4 [un0; un1] used_builder in
  (∀ e, touches_only (getOrMakeExpr e) (λ _, False) (λ _, False))
  ∧ read_map_ call.2 !! (bv_val 0 32, (12288%N, None)) =
    read_map_ used_builder !! (bv_val 0 32, (12288%N, None)).
Proof.
  intros call. split; [exact examples_touch_nothing|].
  apply (X7_read_footprint getOrMakeExpr Order321 format_pointer
           (bv_val 5 32) const4 [un0; un1] (λ _, False) (λ _, False)
           examples_touch_nothing used_builder).
  intros [[]|Hin]. simpl in Hin.
  rewrite !elem_of_cons, elem_of_nil in Hin.
  destruct Hin as [Hin|[Hin|[Hin|[]]]]; discriminate Hin.
Defined.

(** The read of the scenario from a new builder: its else-branch is the
    cached read at the older node. *)
Lemma X8_witness :
  let call :=
    getReadForArray getOrMakeExpr Order321 format_pointer x const4
      [un0; un1] (new_builder 0) in
  (∀ e, growing (getOrMakeExpr e))
  ∧ Inv format_pointer translate heap (new_builder 0)
  ∧ live_array heap const4 ∧ live_chain heap [un0; un1]
  ∧ read_map_ (new_builder 0) !! (x, (array_id const4, Some (node_id un0)))
    = None
  ∧ ∃ rest,
      call.1 = Ite (Eq x (bv_val 2 32)) (bv_val 99 8) rest
      ∧ read_map_ call.2 !! (x, (array_id const4, Some (node_id un1))) =
        Some rest.
Proof.
  intros call.
  destruct (X8_else_branch_is_the_cached_read getOrMakeExpr Order321
              format_pointer translate examples_growing heap
              (examples_computes heap) x const4 un0 [un1] (new_builder 0)
              (Inv_new_builder format_pointer translate heap 0)
              eq_refl examples_live_chain eq_refl)
    as (rest & Hterm & Hcached & _).
  split; [exact examples_growing|]. split; [apply Inv_new_builder|].
  split; [reflexivity|]. split; [exact examples_live_chain|].
  split; [reflexivity|]. exists rest. split; [exact Hterm | exact Hcached].
Defined.

(** The stored value 300 gives the leaf 44. *)
Lemma X9_witness :
  Inv format_pointer translate MoreExamples.heap (new_builder 0)
  ∧ live_array MoreExamples.heap MoreExamples.wide3
  ∧ isConstantArray MoreExamples.wide3 = true
  ∧ (2 < size MoreExamples.wide3)%N
  ∧ constantValues MoreExamples.wide3 !! N.to_nat 2 = Some 300%Z
  ∧ (getArrayValues format_pointer MoreExamples.wide3 (new_builder 0)).1
      !! N.to_nat 2 = Some (Numeral 44 8).
Proof.
  split; [apply Inv_new_builder|]. do 4 (split; [reflexivity|]).
  exact (proj1 (X9_constant_leaf_is_the_low_byte format_pointer translate
                  MoreExamples.heap MoreExamples.wide3 (new_builder 0) 2
                  300%Z
                  (Inv_new_builder format_pointer translate
                     MoreExamples.heap 0)
                  eq_refl eq_refl eq_refl eq_refl)).
Defined.

(** The two leaves of the symbolic array of two bytes differ. *)
Lemma X10_witness :
  isConstantArray sym2 = false
  ∧ array_variables_ (new_builder 0) !! array_id sym2 = None
  ∧ String.length "arr_0x1000_0" ≤ 255
  ∧ String.length "arr_0x1000_1" ≤ 255
  ∧ 0%N ≠ 1%N
  ∧ bv_const "arr_0x1000_0" 8 ≠ bv_const "arr_0x1000_1" 8.
Proof.
  assert (String.length "arr_0x1000_0" ≤ 255) as Hlen0
    by (apply Nat.leb_le; reflexivity).
  assert (String.length "arr_0x1000_1" ≤ 255) as Hlen1
    by (apply Nat.leb_le; reflexivity).
  assert (0%N ≠ 1%N) as Hne by discriminate.
  do 2 (split; [reflexivity|]). split; [exact Hlen0|].
  split; [exact Hlen1|]. split; [exact Hne|].
  exact (X10_leaf_names_are_distinct format_pointer sym2 (new_builder 0)
           0 1 _ _ eq_refl eq_refl Hlen0 Hlen1 Hne eq_refl eq_refl).
Defined.

(** The two leaves of the array with a name of 255 characters are the same
    constant. *)
Lemma X11_witness :
  let leaves :=
    (getArrayValues format_pointer MoreExamples.long2 (new_builder 0)).1 in
  isConstantArray MoreExamples.long2 = false
  ∧ array_variables_ (new_builder 0) !! array_id MoreExamples.long2 = None
  ∧ 255 ≤ String.length (c_str (name MoreExamples.long2))
  ∧ leaves !! 0 = Some (Const MoreExamples.long_name (BvSort 8))
  ∧ leaves !! 1 = Some (Const MoreExamples.long_name (BvSort 8)).
Proof.
  intros leaves.
  assert (255 ≤ String.length (c_str (name MoreExamples.long2))) as Hlen
    by (apply Nat.leb_le; vm_compute; reflexivity).
  do 2 (split; [reflexivity|]). split; [exact Hlen|]. split.
  - exact (X11_long_names_collide format_pointer MoreExamples.long2
             (new_builder 0) 0 eq_refl eq_refl Hlen eq_refl).
  - exact (X11_long_names_collide format_pointer MoreExamples.long2
             (new_builder 0) 1 eq_refl eq_refl Hlen eq_refl).
Defined.

(** The session that made the used builder left the leaf vector of the
    symbolic array in the cache, with its two leaves. *)
Lemma X12_witness :
  Forall (live_call heap)
    [CallGetReadForArray x const4 [un0; un1];
     CallGetInitialRead sym2 1%N;
     CallMakeReadExpr
       {| re_index := bv_val 0 32; updates_root := const1;
          updates_head := [] |}]
  ∧ live_array heap sym2
  ∧ array_variables_ used_builder !! array_id sym2 =
    Some [bv_const "arr_0x1000_0" 8; bv_const "arr_0x1000_1" 8]
  ∧ length [bv_const "arr_0x1000_0" 8; bv_const "arr_0x1000_1" 8] =
    N.to_nat (size sym2).
Proof.
  assert (Forall (live_call heap)
            [CallGetReadForArray x const4 [un0; un1];
             CallGetInitialRead sym2 1%N;
             CallMakeReadExpr
               {| re_index := bv_val 0 32; updates_root := const1;
                  updates_head := [] |}]) as Hlive
    by (repeat constructor).
  split; [exact Hlive|]. split; [reflexivity|]. split; [reflexivity|].
  exact (proj1 (proj1 (X12_sessions_keep_the_caches_sound getOrMakeExpr
                         Order321 format_pointer translate heap
                         (examples_computes heap) _ 0 Hlive)
                  sym2 _ eq_refl eq_refl)).
Defined.

(** The read expression of the scenario at index 2. *)
Lemma X13_witness :
  let re :=
    {| re_index := bv_val 2 32; updates_root := const4;
       updates_head := [un0; un1] |} in
  let call := makeReadExpr getOrMakeExpr Order321 format_pointer re
                (new_builder 0) in
  Inv format_pointer translate heap (new_builder 0)
  ∧ live_array heap const4 ∧ live_chain heap [un0; un1]
  ∧ (size const4 < 2 ^ 32)%N
  ∧ eval (model_of 0) call.1 = 99%Z
  ∧ read_map_ call.2
      !! (bv_val 2 32, (array_id const4, Some (node_id un0))) = Some call.1.
Proof.
  intros re call.
  destruct (X13_makeReadExpr_resolves_the_read getOrMakeExpr Order321
              format_pointer translate heap (examples_computes heap) re
              (new_builder 0) (model_of 0)
              (Inv_new_builder format_pointer translate heap 0)
              eq_refl examples_live_chain eq_refl)
    as (Hval & Hcached & _).
  split; [apply Inv_new_builder|]. split; [reflexivity|].
  split; [exact examples_live_chain|]. split; [reflexivity|].
  split; [exact Hval | exact Hcached].
Defined.

(** The read of the scenario under two orders, from a new builder and from
    a used one. *)
Lemma X14_witness :
  (∀ e, computes format_pointer translate heap (getOrMakeExpr e)
          (translate e))
  ∧ Inv format_pointer translate heap (new_builder 0)
  ∧ Inv format_pointer translate heap used_builder
  ∧ live_array heap const4 ∧ live_chain heap [un0; un1]
  ∧ (getReadForArray getOrMakeExpr Order123 format_pointer x const4
       [un0; un1] (new_builder 0)).1 =
    (getReadForArray getOrMakeExpr Order321 format_pointer x const4
       [un0; un1] used_builder).1.
Proof.
  split; [exact (examples_computes heap)|]. split; [apply Inv_new_builder|].
  split; [exact used_builder_Inv|]. split; [reflexivity|].
  split; [exact examples_live_chain|].
  exact (X14_cache_and_order_do_not_change_the_term getOrMakeExpr
           format_pointer translate heap Order123 Order321 x const4
           [un0; un1] (new_builder 0) used_builder (examples_computes heap)
           (Inv_new_builder format_pointer translate heap 0)
           used_builder_Inv eq_refl examples_live_chain).
Defined.
